(** * fabio: the main package (main.go)

    A shallow embedding of the control loops of fabio's [main] package:
    the configuration merger ([watchBackend]), the no-route HTML watcher
    ([watchNoRouteHTML]), the route logger ([logRoutes]), the tcp-dynamic
    listener loop and the SNI matcher of [startServers], and the registry
    initialisation loop ([initBackend]).

    Every loop of the program is an endless [for]; it is embedded as a step
    function over the value it receives (a channel message, a timer tick, an
    attempt), returning the next state together with the list of effects the
    iteration performs, in program order. *)

From stdpp Require Import gmap strings list fin_maps.
From Stdlib Require Import ZArith Ascii.

Local Open Scope Z_scope.

(** ** Go's [strings] package, as far as main.go calls it *)

(** The line feed, written ["\n"] in the Go source. *)
Definition nl : string := String "010"%char EmptyString.

Module strings.

(** [strings.Contains(s, substr)]. *)
Fixpoint Contains (s substr : string) : bool :=
  String.prefix substr s ||
  match s with
  | EmptyString => false
  | String _ s' => Contains s' substr
  end.

(** [strings.Split(s, sep)] for a non-empty [sep] (main.go only splits at
    [":"]). [skip] counts the bytes of a separator still to be dropped and
    [cur] is the field read so far. *)
Fixpoint Split_from (sep s : string) (skip : nat) (cur : string) : list string :=
  match s with
  | EmptyString => [cur]
  | String c s' =>
      match skip with
      | S k => Split_from sep s' k cur
      | O =>
          if String.prefix sep s
          then cur :: Split_from sep s' (pred (String.length sep)) EmptyString
          else Split_from sep s' O (cur +:+ String c EmptyString)
      end
  end.

Definition Split (s sep : string) : list string := Split_from sep s O EmptyString.

(** [strings.Replace(s, old, new, -1)] for a non-empty [old] (main.go only
    replaces the line feed). *)
Fixpoint Replace_from (old new s : string) (skip : nat) : string :=
  match s with
  | EmptyString => EmptyString
  | String c s' =>
      match skip with
      | S k => Replace_from old new s' k
      | O =>
          if String.prefix old s
          then new +:+ Replace_from old new s' (pred (String.length old))
          else String c (Replace_from old new s' O)
      end
  end.

Definition Replace (s old new : string) : string := Replace_from old new s O.

End strings.

(** ** Data of the [route] package read by main.go *)

(** [url.URL]: main.go reads [Scheme]; [Host] is the [host:port] authority. *)
Record URL := mkURL { Scheme : string; Host : string }.

(** Modelled from the spec: the declaration of [route.Target] is not part of
    main.go. A target is a backend URL plus opts; [URL] is a pointer that
    main.go tests against [nil], [Opts] is a [map[string]string]. *)
Record Target := mkTarget {
  Service : string;
  TURL : option URL;
  Opts : gmap string string
}.

(** Modelled from the spec: [route.Route] is a rule keyed by host and path
    holding an ordered sequence of targets. *)
Record Route := mkRoute { RHost : string; RPath : string; Targets : list Target }.

(** Modelled from the spec: [route.Routes] is the ordered list of routes of a
    host and [route.Table] maps a host key to it. *)
Abbreviation Routes := (list Route).
Abbreviation Table := (gmap string Routes).

(** ** Effects

    What one iteration of a loop does to the outside, in program order. *)

(** An argument of a [log.Printf] call. *)
Inductive Arg :=
| AStr (s : string)
| AInt (n : Z).

Inductive Effect :=
(** [log.Printf(format, args...)] *)
| Printf (format : string) (args : list Arg)
(** [log.Print(args...)] *)
| Print (args : list Arg)
(** [registry.Default.Register(aliases)] *)
| Register (aliases : list string)
(** the call [route.NewTable(tableBuffer)] on the buffered text *)
| CallNewTable (text : string)
(** [route.SetTable(t)] *)
| SetTable (t : Table)
(** [close(first)] *)
| CloseFirst
(** [noroute.SetHTML(next)] *)
| SetHTML (html : string)
(** [proxy.CloseProxy(port)] *)
| CloseProxy (port : string)
(** [go proxy.ListenAndServeTCP(l, h, tlscfg)] with [l.Addr = port] *)
| GoListenAndServeTCP (port : string)
(** [time.Sleep(d)] *)
| Sleep (d : Z)
(** the call [X.NewBackend(...)] of the backend package named [backend] *)
| CallNewBackend (backend : string)
(** [exit.Fatal(args...)] *)
| ExitFatal (args : list Arg)
(** [exit.Exit(code)] *)
| ExitExit (code : Z).

(** ** Collaborators outside main.go *)

(** [dmp.Diff] of github.com/sergi/go-diff. *)
Inductive Operation := DiffDelete | DiffEqual | DiffInsert.
Record Diff := mkDiff { Type_ : Operation; Text : string }.

(** The functions main.go calls in the [route] package and in libraries,
    taken as parameters: [route.ParseAliases] and [route.NewTable] return a
    value and an error, [Dump] is the method [route.Table.Dump],
    [LookupHost] the method [route.Table.LookupHost] for a picker named by
    the configured strategy, [DiffMain] is [dmp.New().DiffMain] and
    [TrimSpace] is [strings.TrimSpace]. *)
Class Collaborators := {
  ParseAliases : string → list string * option string;
  NewTable : string → Table + string;
  Dump : Table → string;
  LookupHost : Table → string → string → option Target;
  DiffMain : string → string → bool → list Diff;
  TrimSpace : string → string
}.

(** The part of [config.Config] the loops read. *)
Record Config := mkConfig {
  Registry_Backend : string;
  Registry_Timeout : Z;
  Registry_Retry : Z;
  Log_RoutesFormat : string;
  Proxy_Strategy : string
}.

(** [bytes.Buffer], as a string: [Reset] empties it, [WriteString] appends
    and [String] reads the content. *)
Module Buffer.

Definition Reset (b : string) : string := EmptyString.
Definition WriteString (b s : string) : string := b +:+ s.
Definition String (b : string) : string := b.

End Buffer.

(** [sync.Once]: the flag tells whether [Do] has run; [Do] performs the
    effects of its function the first time only. *)
Definition once_Do (done_ : bool) (f : list Effect) : bool * list Effect :=
  if done_ then (true, []) else (true, f).

Section Program.
Context `{Collaborators}.

(** ** logRoutes *)

(** One iteration of the loop of the closure [fmtDiff] over the buffer [b]. *)
Definition fmtDiff_step (b : string) (d : Diff) : string :=
  let t := TrimSpace (Text d) in
  if decide (t = EmptyString) then b
  else
    match Type_ d with
    | DiffDelete =>
        Buffer.WriteString (Buffer.WriteString b "- ")
          (strings.Replace t nl (nl +:+ "- "))
    | DiffInsert =>
        Buffer.WriteString (Buffer.WriteString b "+ ")
          (strings.Replace t nl (nl +:+ "+ "))
    | DiffEqual => b
    end.

Definition fmtDiff (diffs : list Diff) : string :=
  Buffer.String (foldl fmtDiff_step EmptyString diffs).

Definition defFormat : string := "delta".

(** [logRoutes] calls itself on [defFormat] for an unknown format; [fuel]
    bounds the depth of the calls. *)
Fixpoint logRoutes_rec (fuel : nat) (t : Table) (last next format : string)
  : option (list Effect) :=
  match fuel with
  | O => None
  | S fuel' =>
      if decide (format = "detail") then
        Some [Printf ("[INFO] Updated config to" +:+ nl +:+ "%s") [AStr (Dump t)]]
      else if decide (format = "delta") then
        let delta := fmtDiff (DiffMain last next true) in
        if decide (delta ≠ EmptyString)
        then Some [Printf ("[INFO] Config updates" +:+ nl +:+ "%s") [AStr delta]]
        else Some []
      else if decide (format = "all") then
        Some [Printf ("[INFO] Updated config to" +:+ nl +:+ "%s") [AStr next]]
      else
        match logRoutes_rec fuel' t last next defFormat with
        | Some rest =>
            Some (Printf "[WARN] Invalid route format %q. Defaulting to %q"
                    [AStr format; AStr defFormat] :: rest)
        | None => None
        end
  end.

Definition logRoutes (t : Table) (last next format : string) : list Effect :=
  default [] (logRoutes_rec 2 t last next format).

(** ** watchBackend *)

(** The variables of [watchBackend] that live across iterations
    ([nextTable], [customBE] and the content of [tableBuffer] are written
    anew before they are read in every iteration), and the current table.

    Modelled from the spec: the current routing table, which [route.SetTable]
    replaces, is a single process-wide cell. *)
Record MergerState := mkMerger {
  svccfg : string;
  mancfg : string;
  lastTable : string;
  once : bool;
  table : Table
}.

(** A message on one of the two watch streams. *)
Inductive Msg :=
| FromSvc (text : string)
| FromMan (text : string).

(** [select { case svccfg = <-svc: case mancfg = <-man: }] *)
Definition receive (st : MergerState) (m : Msg) : MergerState :=
  match m with
  | FromSvc s => mkMerger s (mancfg st) (lastTable st) (once st) (table st)
  | FromMan s => mkMerger (svccfg st) s (lastTable st) (once st) (table st)
  end.

(** The buffer after the three writes of an iteration. *)
Definition combine (st : MergerState) : string :=
  Buffer.WriteString
    (Buffer.WriteString (Buffer.WriteString (Buffer.Reset EmptyString) (svccfg st)) nl)
    (mancfg st).

(** One iteration of the loop of the [default] case. *)
Definition mergeStep (cfg : Config) (st0 : MergerState) (m : Msg)
  : MergerState * list Effect :=
  let st := receive st0 m in
  let tableBuffer := combine st in
  let nextTable := Buffer.String tableBuffer in
  if decide (nextTable = lastTable st) then (st, [])
  else
    let '(aliases, err) := ParseAliases nextTable in
    let warn :=
      match err with
      | Some e => [Printf "[WARN]: %s" [AStr e]]
      | None => []
      end in
    match NewTable tableBuffer with
    | inr e =>
        (st, warn ++ [Register aliases; CallNewTable tableBuffer;
                      Printf "[WARN] %s" [AStr e]])
    | inl t =>
        let '(o, closing) := once_Do (once st) [CloseFirst] in
        (mkMerger (svccfg st) (mancfg st) nextTable o t,
         warn ++ [Register aliases; CallNewTable tableBuffer; SetTable t]
              ++ logRoutes t (lastTable st) nextTable (Log_RoutesFormat cfg)
              ++ closing)
    end.

(** One iteration of the loop of the ["custom"] case, which receives from the
    services stream only. *)
Definition customStep (st : MergerState) (m : Msg) : MergerState * list Effect :=
  match m with
  | FromSvc customBE =>
      let report :=
        if decide (customBE ≠ "OK")
        then [Printf "[ERROR] error during update from custom back end - %s"
                [AStr customBE]]
        else [] in
      let '(o, closing) := once_Do (once st) [CloseFirst] in
      (mkMerger (svccfg st) (mancfg st) (lastTable st) o (table st),
       report ++ closing)
  | FromMan _ => (st, [])
  end.

Definition watchBackend_step (cfg : Config) (st : MergerState) (m : Msg)
  : MergerState * list Effect :=
  if decide (Registry_Backend cfg = "custom") then customStep st m
  else mergeStep cfg st m.

(** The loop over the messages received so far. *)
Fixpoint watchBackend_loop (cfg : Config) (st : MergerState) (ms : list Msg)
  : MergerState * list Effect :=
  match ms with
  | [] => (st, [])
  | m :: ms' =>
      let '(st1, e1) := watchBackend_step cfg st m in
      let '(st2, e2) := watchBackend_loop cfg st1 ms' in
      (st2, e1 ++ e2)
  end.

(** The state at the [var] block of [watchBackend]; [t0] is the table in
    place when the function starts. *)
Definition watchBackend_init (t0 : Table) : MergerState :=
  mkMerger EmptyString EmptyString EmptyString false t0.

Definition watchBackend (cfg : Config) (t0 : Table) (ms : list Msg)
  : MergerState * list Effect :=
  watchBackend_loop cfg (watchBackend_init t0) ms.

(** ** watchNoRouteHTML *)

(** One iteration of the loop, on the value [next] received from the stream.

    Modelled from the spec: the no-route HTML of the [noroute] package is a
    single process-wide cell, read by [noroute.GetHTML] and replaced by
    [noroute.SetHTML]; [html] is its content. *)
Definition watchNoRouteHTML_step (html next : string) : string * list Effect :=
  if decide (next = html) then (html, [])
  else
    (next,
     [SetHTML next;
      if decide (next = EmptyString)
      then Print [AStr "[INFO] Unset noroute HTML"]
      else Printf "[INFO] Set noroute HTML (%d bytes)"
             [AInt (Z.of_nat (String.length next))]]).

Fixpoint watchNoRouteHTML (html : string) (values : list string)
  : string * list Effect :=
  match values with
  | [] => (html, [])
  | next :: values' =>
      let '(html1, e1) := watchNoRouteHTML_step html next in
      let '(html2, e2) := watchNoRouteHTML html1 values' in
      (html2, e1 ++ e2)
  end.

(** ** lookupHostMatcher *)

(** The closure returned by [lookupHostMatcher(cfg)], applied to [host] when
    [route.GetTable()] is [tbl]. *)
Definition lookupHostMatcher (cfg : Config) (tbl : Table) (host : string) : bool :=
  let pick := Proxy_Strategy cfg in
  match LookupHost tbl host pick with
  | None => false
  | Some t =>
      let '(proto, ok) :=
        match Opts t !! "proto" with
        | Some p => (p, true)
        | None => (EmptyString, false)
        end in
      let proto :=
        match ok, TURL t with
        | false, Some u => Scheme u
        | _, _ => proto
        end in
      bool_decide ("tcp" = proto)
  end.

(** Where a connection accepted on a https+tcp+sni listener goes. *)
Inductive Handoff := ToTCPSNIProxy | ToHTTPProxy.

(** Modelled from the spec: [proxy.ListenAndServeHTTPSTCPSNI] is not part of
    main.go. It peeks the ClientHello; if the matcher holds of the SNI name
    the raw connection goes to the TCP+SNI proxy, otherwise TLS is terminated
    locally and the connection goes to the HTTP proxy. *)
Definition ListenAndServeHTTPSTCPSNI_dispatch (matcher : string → bool) (sni : string)
  : Handoff :=
  if matcher sni then ToTCPSNIProxy else ToHTTPProxy.

End Program.

(** ** unique, difference, tableSchemes *)

Definition unique_step (acc : gmap string bool * list string) (entry : string)
  : gmap string bool * list string :=
  let '(keys, list) := acc in
  match keys !! entry with
  | Some _ => (keys, list)
  | None => (<[entry := true]> keys, list ++ [entry])
  end.

Definition unique (strSlice : list string) : list string :=
  snd (foldl unique_step (∅, []) strSlice).

(** [difference] returns elements in [a] that aren't in [b]. *)
Definition difference (a b : list string) : list string :=
  let mb : gmap string unit := foldl (λ mb x, <[x := tt]> mb) ∅ b in
  foldl (λ diff x, match mb !! x with Some _ => diff | None => diff ++ [x] end) [] a.

(** The inner loop of [tableSchemes]; [None] is the nil dereference of
    [target.URL.Scheme] on a target without URL. *)
Fixpoint targetSchemes (schemes : list string) (targets : list Target)
  : option (list string) :=
  match targets with
  | [] => Some schemes
  | target :: targets' =>
      match TURL target with
      | None => None
      | Some u => targetSchemes (schemes ++ [Scheme u]) targets'
      end
  end.

Fixpoint routesSchemes (schemes : list string) (r : Routes) : option (list string) :=
  match r with
  | [] => Some schemes
  | rt :: r' =>
      match targetSchemes schemes (Targets rt) with
      | None => None
      | Some schemes' => routesSchemes schemes' r'
      end
  end.

Definition tableSchemes (r : Routes) : option (list string) :=
  unique <$> routesSchemes [] r.

(** ** The tcp-dynamic listener loop of startServers *)

(** The body of [for target, rts := range table] on one entry; [None] is a
    panic (an index out of range or the nil dereference of [tableSchemes]). *)
Definition scan_step (ports : list string) (entry : string * Routes)
  : option (list string) :=
  let '(target, rts) := entry in
  ports' ←
    (if strings.Contains target ":" then
       field ← strings.Split target ":" !! 1%nat;
       let buffer := Buffer.WriteString (Buffer.WriteString EmptyString ":") field in
       schemes ← tableSchemes rts;
       Some (if bool_decide (length schemes = 1%nat)
                && bool_decide (schemes !! 0%nat = Some "tcp")
             then ports ++ [Buffer.String buffer]
             else ports)
     else Some ports);
  Some (unique ports').

(** The range loop over the entries of the table in the order [entries] in
    which the Go runtime yields them. *)
Fixpoint scan (ports : list string) (entries : list (string * Routes))
  : option (list string) :=
  match entries with
  | [] => Some ports
  | entry :: entries' =>
      match scan_step ports entry with
      | None => None
      | Some ports' => scan ports' entries'
      end
  end.

Definition close_effects (port : string) : list Effect :=
  [Printf "[DEBUG] Dynamic TCP listener on %s eligable for termination" [AStr port];
   CloseProxy port].

(** The body of [for _, port := range ports]; [listen port] tells whether
    [net.Listen("tcp", port)] succeeds. *)
Definition open_effects (listen : string → bool) (port : string) : list Effect :=
  if listen port
  then [Printf "[INFO] Starting dynamic TCP listener on port %s " [AStr port];
        GoListenAndServeTCP port]
  else [Printf "[DEBUG] Dynamic TCP port %s in use" [AStr port]].

(** One iteration of the refresh loop: [entries] is the content of
    [route.GetTable()] in iteration order, [lastPorts] the variable of that
    name; the result is its next value and the effects. *)
Definition dynamic_tick (refresh : Z) (entries : list (string * Routes))
    (lastPorts : list string) (listen : string → bool)
  : option (list string * list Effect) :=
  ports ← scan [] entries;
  Some (ports,
        [Sleep refresh]
          ++ flat_map close_effects (difference lastPorts ports)
          ++ flat_map (open_effects listen) ports).

(** ** initBackend *)

(** What one iteration of the loop observes: the errors of
    [X.NewBackend] and of [registry.Default.Register(nil)], the value of
    [time.Now()] at the deadline test and the value of [shuttingDown] loaded
    after the sleep. *)
Record Attempt := mkAttempt {
  newBackend_err : option string;
  register_err : option string;
  now : Z;
  shuttingDown : Z
}.

(** How the function ends. Modelled from the spec: [exit.Fatal] and
    [exit.Exit] of the [exit] package end the process; a fatal end is exit
    code 1. [Pending] is the loop still running when the observations end:
    an iteration with a known backend needs the observations of an attempt,
    the [default] case of the switch needs none. *)
Inductive Outcome :=
| Returned
| Exited (code : Z)
| Pending.

Definition knownBackend (backend : string) : bool :=
  bool_decide (backend ∈ ["file"; "static"; "consul"; "custom"]).

Fixpoint initBackend_loop (cfg : Config) (deadline : Z) (attempts : list Attempt)
  : Outcome * list Effect :=
  if negb (knownBackend (Registry_Backend cfg)) then
    (Exited 1,
     [ExitFatal [AStr "[FATAL] Unknown registry backend ";
                 AStr (Registry_Backend cfg)]])
  else
    match attempts with
    | [] => (Pending, [])
    | a :: attempts' =>
        let '(err, calls) :=
          match newBackend_err a with
          | Some e => (Some e, [CallNewBackend (Registry_Backend cfg)])
          | None =>
              (register_err a, [CallNewBackend (Registry_Backend cfg); Register []])
          end in
        match err with
        | None => (Returned, calls)
        | Some e =>
            let warn := Print [AStr "[WARN] Error initializing backend. "; AStr e] in
            if now a >? deadline then
              (Exited 1,
               calls ++ [warn; ExitFatal [AStr "[FATAL] Timeout registering backend."]])
            else if shuttingDown a >? 0 then
              (Exited 1, calls ++ [warn; Sleep (Registry_Retry cfg); ExitExit 1])
            else
              let '(o, e') := initBackend_loop cfg deadline attempts' in
              (o, calls ++ [warn; Sleep (Registry_Retry cfg)] ++ e')
        end
    end.

(** [start] is the value of [time.Now()] when the function is entered. *)
Definition initBackend (cfg : Config) (start : Z) (attempts : list Attempt)
  : Outcome * list Effect :=
  initBackend_loop cfg (start + Registry_Timeout cfg) attempts.

(** ** Vocabulary of the properties *)

(** The number of effects of a trace that satisfy [p]. *)
Definition count_if (p : Effect → bool) (es : list Effect) : nat :=
  length (List.filter p es).

Definition is_SetTable (e : Effect) : bool :=
  match e with SetTable _ => true | _ => false end.

Definition is_CloseFirst (e : Effect) : bool :=
  match e with CloseFirst => true | _ => false end.

Definition is_SetHTML (e : Effect) : bool :=
  match e with SetHTML _ => true | _ => false end.

Definition is_exit (e : Effect) : bool :=
  match e with ExitFatal _ | ExitExit _ => true | _ => false end.

(** A publication is a call of [route.SetTable]. *)
Definition publications (es : list Effect) : nat := count_if is_SetTable es.

(** The latest text received on the services stream, and on the manual
    stream, after the messages [ms]; both texts are empty at the start. *)
Definition latestSvc (ms : list Msg) : string :=
  foldl (λ cur m, match m with FromSvc s => s | FromMan _ => cur end) EmptyString ms.

Definition latestMan (ms : list Msg) : string :=
  foldl (λ cur m, match m with FromMan s => s | FromSvc _ => cur end) EmptyString ms.

(** The combined input of every message of [ms], in order, when the latest
    texts before [ms] are [svc] and [man]. *)
Fixpoint combinedInputs (svc man : string) (ms : list Msg) : list string :=
  match ms with
  | [] => []
  | FromSvc s :: ms' => (s +:+ nl +:+ man) :: combinedInputs s man ms'
  | FromMan s :: ms' => (svc +:+ nl +:+ s) :: combinedInputs svc s ms'
  end.

(** The number of positions of [l] whose element differs from the one before
    it, [prev] being before the first. *)
Fixpoint changes (prev : string) (l : list string) : nat :=
  match l with
  | [] => O
  | x :: l' => ((if decide (x = prev) then 0 else 1) + changes x l')%nat
  end.

(** The number of distinct inputs of a sequence: its maximal runs of equal
    adjacent elements. *)
Definition distinctInputs (l : list string) : nat :=
  match l with
  | [] => O
  | x :: l' => S (changes x l')
  end.

(** The effective protocol of a target as the specification words it: the
    value of [opts["proto"]] if present, otherwise the scheme of the URL. *)
Definition effectiveProto (t : Target) : option string :=
  match Opts t !! "proto" with
  | Some p => Some p
  | None => Scheme <$> TURL t
  end.

Definition is_Sleep (e : Effect) : bool :=
  match e with Sleep _ => true | _ => false end.

Definition is_attempt (e : Effect) : bool :=
  match e with CallNewBackend _ => true | _ => false end.

(** The error of an attempt of [initBackend], if it fails: that of the
    creation of the backend, otherwise that of its registration. *)
Definition failure (a : Attempt) : option string :=
  match newBackend_err a with
  | Some e => Some e
  | None => register_err a
  end.

(** An attempt after which the loop tries again: it fails, the deadline has
    not passed and the shutdown flag is not set. *)
Definition retried (deadline : Z) (a : Attempt) : Prop :=
  is_Some (failure a) ∧ now a ≤ deadline ∧ shuttingDown a ≤ 0.

(** [url.URL.Port]: the part of [Host] after its last colon, if it has one. *)
Definition url_Port (u : URL) : string :=
  match strings.Split (Host u) ":" with
  | _ :: field :: fields => List.last fields field
  | _ => EmptyString
  end.

(** The ports the specification of tcp-dynamic speaks of: the backend port
    of every target of the table whose URL has the scheme [tcp]. *)
Definition specBackendPorts (entries : list (string * Routes)) : list string :=
  '(_, rts) ← entries;
  rt ← rts;
  target ← Targets rt;
  match TURL target with
  | Some u => if decide (Scheme u = "tcp") then [":" +:+ url_Port u] else []
  | None => []
  end.

(** The port the loop derives from a host key of the table: the second of
    its colon-separated fields, if the key has a colon. *)
Definition dynamicPort (host : string) : option string :=
  if strings.Contains host ":"
  then (λ field, ":" +:+ field) <$> strings.Split host ":" !! 1%nat
  else None.

(** The routes have a target, and every target has the scheme [tcp]. *)
Definition allTargetsTcp (rts : Routes) : Prop :=
  (∃ rt target, rt ∈ rts ∧ target ∈ Targets rt) ∧
  ∀ rt target, rt ∈ rts → target ∈ Targets rt →
               Scheme <$> TURL target = Some "tcp".

(** Every target of the routes has a URL. *)
Definition haveURLs (rts : Routes) : Prop :=
  ∀ rt target, rt ∈ rts → target ∈ Targets rt → is_Some (TURL target).

(** ** Collaborators for running the embedding on concrete inputs *)

Module Demo.

Definition tcpTarget : Target :=
  mkTarget "db" (Some (mkURL "tcp" "10.0.0.7:9000")) ∅.

Definition httpTarget : Target :=
  mkTarget "web" (Some (mkURL "http" "10.0.0.1:80")) ∅.

Definition protoTarget : Target :=
  mkTarget "web" (Some (mkURL "https" "10.0.0.1:443")) {[ "proto" := "tcp" ]}.

(** A table for every text but those that mention [bogus]. *)
Definition newTable (text : string) : Table + string :=
  if strings.Contains text "bogus" then inr "route: syntax error"
  else if strings.Contains text "db"
       then inl {[ ":1234" := [mkRoute ":1234" EmptyString [tcpTarget]] ]}
       else inl ∅.

Definition lookupHost (tbl : Table) (host pick : string) : option Target :=
  match tbl !! host with
  | Some (rt :: _) => head (Targets rt)
  | _ => None
  end.

#[export] Instance collaborators : Collaborators := {|
  ParseAliases := λ _, ([], None);
  NewTable := newTable;
  Dump := λ _, "dump";
  LookupHost := lookupHost;
  DiffMain := λ last next _, [mkDiff DiffDelete last; mkDiff DiffInsert next];
  TrimSpace := λ s, s
|}.

(** The table of [route add db :1234 tcp://10.0.0.7:9000]. *)
Definition dynTable : Table :=
  {[ ":1234" := [mkRoute ":1234" EmptyString [tcpTarget]] ]}.

Definition cfg : Config := mkConfig "consul" 10 1 "delta" "rnd".
Definition customCfg : Config := mkConfig "custom" 10 1 "delta" "rnd".

End Demo.

(** ** initMetrics, makeTLSConfig and startServers *)

(** The part of [cfg.Metrics] that [initMetrics] reads. *)
Record MetricsConfig := mkMetrics {
  Metrics_Target : string;
  Metrics_Timeout : Z;
  Metrics_Retry : Z
}.

(** What one iteration of the loop of [initMetrics] observes: the errors of
    the two calls of [metrics.NewRegistry] (the second is made only if the
    first gives none), the value of [time.Now()] at the deadline test and
    the value of [shuttingDown] loaded after the sleep. *)
Record RegistryAttempt := mkRegistryAttempt {
  defaultRegistry_err : option string;
  serviceRegistry_err : option string;
  clock : Z;
  flag : Z
}.

(** [tls.Config], of which main.go reads [ClientAuth]. *)
Record TLSConfig := mkTLS { ClientAuth : Z }.

(** [tls.RequireAndVerifyClientCert] of crypto/tls. *)
Definition RequireAndVerifyClientCert : Z := 4.

(** Modelled from the spec: [config.Listen] is a record
    [{proto, addr, cert_source?, ...}]; main.go reads the protocol, the
    address and the name of the cert source, and hands the record on. *)
Record Listen := mkListen {
  Proto : string;
  Addr : string;
  CertSource_Name : string
}.

(** What [startServers] starts with [go] for a listener, by the case of its
    switch. *)
Inductive Adapter :=
| ServeHTTP
| ServeGRPC
| ServeTCP
| ServeTCPSNI
| ServeTCPDynamic
| ServeHTTPSTCPSNI.

(** The effects of the start-up functions: those of the loops above, the
    call [metrics.NewRegistry(cfg.Metrics)] whose result goes to the named
    variable, and the [go func() { ... }()] of a listener. *)
Inductive Action :=
| Do (e : Effect)
| NewRegistry (variable : string)
| Go (a : Adapter) (l : Listen) (tlscfg : option TLSConfig).

(** The functions of the [cert] package and [strings.ToUpper], taken as
    parameters: [cert.NewSource(l.CertSource)] and
    [cert.TLSConfig(src, l.StrictMatch, ...)] return a value and an error. *)
Class CertPkg := {
  Source : Type;
  NewSource : Listen → Source + string;
  cert_TLSConfig : Source → Listen → option TLSConfig + string;
  ToUpper : string → string
}.

Fixpoint initMetrics_loop (mcfg : MetricsConfig) (deadline : Z)
    (attempts : list RegistryAttempt) : Outcome * list Action :=
  match attempts with
  | [] => (Pending, [])
  | a :: attempts' =>
      let '(err, calls) :=
        match defaultRegistry_err a with
        | Some e => (Some e, [NewRegistry "metrics.DefaultRegistry"])
        | None =>
            (serviceRegistry_err a,
             [NewRegistry "metrics.DefaultRegistry"; NewRegistry "route.ServiceRegistry"])
        end in
      match err with
      | None => (Returned, calls)
      | Some e =>
          if clock a >? deadline then
            (Exited 1, calls ++ [Do (ExitFatal [AStr "[FATAL] "; AStr e])])
          else
            let warn := Do (Print [AStr "[WARN] Error initializing metrics. "; AStr e]) in
            if flag a >? 0 then
              (Exited 1, calls ++ [warn; Do (Sleep (Metrics_Retry mcfg)); Do (ExitExit 1)])
            else
              let '(o, e') := initMetrics_loop mcfg deadline attempts' in
              (o, calls ++ [warn; Do (Sleep (Metrics_Retry mcfg))] ++ e')
      end
  end.

(** [start] is the value of [time.Now()] when the deadline is set. *)
Definition initMetrics (mcfg : MetricsConfig) (start : Z)
    (attempts : list RegistryAttempt) : Outcome * list Action :=
  if decide (Metrics_Target mcfg = EmptyString) then
    (Returned, [Do (Printf "[INFO] Metrics disabled" [])])
  else initMetrics_loop mcfg (start + Metrics_Timeout mcfg) attempts.

Section Servers.
Context `{CertPkg}.

(** The result is the pair of Go: [inl None] is [nil, nil], [inl (Some c)]
    is [c, nil] and [inr msg] is [nil, err] with the message of the error. *)
Definition makeTLSConfig (l : Listen) : option TLSConfig + string :=
  if decide (CertSource_Name l = EmptyString) then inl None
  else
    match NewSource l with
    | inr err =>
        inr ("Failed to create cert source " +:+ CertSource_Name l +:+ ". " +:+ err)
    | inl src =>
        match cert_TLSConfig src l with
        | inr err =>
            inr ("[FATAL] Failed to create TLS config for cert source "
                   +:+ CertSource_Name l +:+ ". " +:+ err)
        | inl tlscfg => inl tlscfg
        end
    end.

(** The switch on [l.Proto]; [None] is its [default] case. *)
Definition protoSwitch (proto : string) : option Adapter :=
  if decide (proto = "http" ∨ proto = "https") then Some ServeHTTP
  else if decide (proto = "grpc" ∨ proto = "grpcs") then Some ServeGRPC
  else if decide (proto = "tcp") then Some ServeTCP
  else if decide (proto = "tcp+sni") then Some ServeTCPSNI
  else if decide (proto = "tcp-dynamic") then Some ServeTCPDynamic
  else if decide (proto = "https+tcp+sni") then Some ServeHTTPSTCPSNI
  else None.

(** The two log lines of an iteration. *)
Definition listenLogs (l : Listen) (tlscfg : option TLSConfig) : list Action :=
  Do (Printf "[INFO] %s proxy listening on %s" [AStr (ToUpper (Proto l)); AStr (Addr l)])
  :: match tlscfg with
     | Some c =>
         if decide (ClientAuth c = RequireAndVerifyClientCert)
         then [Do (Printf "[INFO] Client certificate authentication enabled on %s"
                     [AStr (Addr l)])]
         else []
     | None => []
     end.

(** The loop over [cfg.Listen]; what the started goroutines do is not part
    of it. *)
Fixpoint startServers (listen : list Listen) : Outcome * list Action :=
  match listen with
  | [] => (Returned, [])
  | l :: listen' =>
      match makeTLSConfig l with
      | inr err => (Exited 1, [Do (ExitFatal [AStr "[FATAL] "; AStr err])])
      | inl tlscfg =>
          match protoSwitch (Proto l) with
          | None =>
              (Exited 1,
               listenLogs l tlscfg
                 ++ [Do (ExitFatal [AStr "[FATAL] Invalid protocol "; AStr (Proto l)])])
          | Some a =>
              let '(o, es) := startServers listen' in
              (o, listenLogs l tlscfg ++ [Go a l tlscfg] ++ es)
          end
      end
  end.

End Servers.

(** A listener that [startServers] passes: its TLS configuration is made
    without error and its protocol is one of the switch. *)
Definition passes `{CertPkg} (l : Listen) : Prop :=
  (∃ tlscfg, makeTLSConfig l = inl tlscfg) ∧ is_Some (protoSwitch (Proto l)).

(** The goroutine started for a listener that passes. *)
Definition started `{CertPkg} (l : Listen) : list Action :=
  match makeTLSConfig l, protoSwitch (Proto l) with
  | inl tlscfg, Some a => [Go a l tlscfg]
  | _, _ => []
  end.

Definition is_Go (e : Action) : bool :=
  match e with Go _ _ _ => true | _ => false end.

Definition is_fatal (e : Action) : bool :=
  match e with Do (ExitFatal _) => true | _ => false end.

Definition is_ending (e : Action) : bool :=
  match e with Do (ExitFatal _) | Do (ExitExit _) => true | _ => false end.

Definition is_sleeping (e : Action) : bool :=
  match e with Do (Sleep _) => true | _ => false end.

Definition is_newDefault (e : Action) : bool :=
  match e with
  | NewRegistry v => bool_decide (v = "metrics.DefaultRegistry")
  | _ => false
  end.

Definition is_newService (e : Action) : bool :=
  match e with
  | NewRegistry v => bool_decide (v = "route.ServiceRegistry")
  | _ => false
  end.

Definition is_logging (e : Action) : bool :=
  match e with Do (Print _) | Do (Printf _ _) => true | _ => false end.

(** The number of actions of a trace that satisfy [p]. *)
Definition count_actions (p : Action → bool) (es : list Action) : nat :=
  length (List.filter p es).

(** The registries an attempt of [initMetrics] calls for: the service
    registry only if the default registry was created. *)
Definition registryCalls (a : RegistryAttempt) : list Action :=
  match defaultRegistry_err a with
  | Some _ => [NewRegistry "metrics.DefaultRegistry"]
  | None => [NewRegistry "metrics.DefaultRegistry"; NewRegistry "route.ServiceRegistry"]
  end.

(** The error of an attempt of [initMetrics], if it fails. *)
Definition registryFailure (a : RegistryAttempt) : option string :=
  match defaultRegistry_err a with
  | Some e => Some e
  | None => serviceRegistry_err a
  end.

(** An attempt after which the loop of [initMetrics] tries again. *)
Definition registryRetried (deadline : Z) (a : RegistryAttempt) : Prop :=
  is_Some (registryFailure a) ∧ clock a ≤ deadline ∧ flag a ≤ 0.

(** What [initMetrics] does at an attempt after which it tries again: the
    calls for the registries, the warning and the sleep. *)
Definition retryActions (mcfg : MetricsConfig) (a : RegistryAttempt) : list Action :=
  registryCalls a
    ++ match registryFailure a with
       | Some e =>
           [Do (Print [AStr "[WARN] Error initializing metrics. "; AStr e]);
            Do (Sleep (Metrics_Retry mcfg))]
       | None => []
       end.

(** The last table published in a trace, if any. *)
Definition lastPublished (es : list Effect) : option Table :=
  foldl (λ cur e, match e with SetTable t => Some t | _ => cur end) None es.

Definition is_Register (e : Effect) : bool :=
  match e with Register _ => true | _ => false end.

Definition is_CallNewTable (e : Effect) : bool :=
  match e with CallNewTable _ => true | _ => false end.

(** Cert sources for running [startServers] on concrete listeners: a source
    named [broken] cannot be created. *)
Module DemoCert.

#[export] Instance certPkg : CertPkg := {|
  Source := string;
  NewSource := λ l,
    if decide (CertSource_Name l = "broken") then inr "no such file"
    else inl (CertSource_Name l);
  cert_TLSConfig := λ src l, inl (Some (mkTLS 4));
  ToUpper := λ s, s
|}.

Definition listeners : list Listen :=
  [mkListen "http" ":9999" EmptyString; mkListen "https" ":443" "pem"].

End DemoCert.

(** * Properties *)

Section Properties.
Context `{Collaborators}.

Lemma append_assoc (s1 s2 s3 : string) :
  (s1 +:+ s2) +:+ s3 = s1 +:+ s2 +:+ s3.
Proof.
  induction s1 as [|c s1 IH]; [done|].
  change (String c ((s1 +:+ s2) +:+ s3) = String c (s1 +:+ s2 +:+ s3)).
  by rewrite IH.
Qed.

Lemma append_empty (s1 s2 : string) :
  s1 +:+ s2 = EmptyString → s1 = EmptyString ∧ s2 = EmptyString.
Proof. destruct s1; [done|]. intros Heq. discriminate Heq. Qed.

Lemma count_if_app p (l1 l2 : list Effect) :
  count_if p (l1 ++ l2) = (count_if p l1 + count_if p l2)%nat.
Proof. unfold count_if. by rewrite List.filter_app, length_app. Qed.

Lemma count_if_cons p e (l : list Effect) :
  count_if p (e :: l) = ((if p e then 1 else 0) + count_if p l)%nat.
Proof. unfold count_if. simpl. by destruct (p e). Qed.

Lemma count_if_zero p (l : list Effect) :
  (∀ e, e ∈ l → p e = false) → count_if p l = O.
Proof.
  unfold count_if. induction l as [|e l IH]; intros Hl; [done|].
  simpl. rewrite (Hl e) by left.
  apply IH. intros e' He'. apply Hl. by right.
Qed.

(** *** logRoutes *)

Lemma logRoutes_rec_delta fuel t last next :
  logRoutes_rec (S fuel) t last next "delta" =
    Some (let delta := fmtDiff (DiffMain last next true) in
          if decide (delta ≠ EmptyString)
          then [Printf ("[INFO] Config updates" +:+ nl +:+ "%s") [AStr delta]]
          else []).
Proof. simpl. by case_decide. Qed.

Lemma logRoutes_rec_other fuel t last next format :
  format ∉ ["detail"; "delta"; "all"] →
  logRoutes_rec (S fuel) t last next format =
    match logRoutes_rec fuel t last next defFormat with
    | Some rest =>
        Some (Printf "[WARN] Invalid route format %q. Defaulting to %q"
                [AStr format; AStr defFormat] :: rest)
    | None => None
    end.
Proof.
  intros Hother. cbn [logRoutes_rec].
  rewrite !decide_False; [done|..]; intros ->; apply Hother;
    repeat first [by left|right].
Qed.

Lemma logRoutes_rec_total fuel t last next format :
  is_Some (logRoutes_rec (S (S fuel)) t last next format).
Proof.
  cbn [logRoutes_rec]. repeat case_decide; try done.
  all: unfold defFormat; rewrite ?logRoutes_rec_delta; done.
Qed.

Lemma logRoutes_rec_only_logs fuel t last next format es e :
  logRoutes_rec fuel t last next format = Some es →
  e ∈ es → ∃ f a, e = Printf f a.
Proof.
  revert format es. induction fuel as [|fuel IH]; intros format es; [done|].
  cbn [logRoutes_rec]. repeat case_decide; intros Hes He; simplify_eq.
  - apply list_elem_of_singleton in He. eauto.
  - apply list_elem_of_singleton in He. eauto.
  - by apply not_elem_of_nil in He.
  - apply list_elem_of_singleton in He. eauto.
  - destruct (logRoutes_rec fuel t last next defFormat) as [rest|] eqn:Hrec; [|done].
    simplify_eq. apply elem_of_cons in He as [->|He]; eauto.
Qed.

Lemma logRoutes_only_logs t last next format e :
  e ∈ logRoutes t last next format → ∃ f a, e = Printf f a.
Proof.
  unfold logRoutes.
  destruct (logRoutes_rec_total 0 t last next format) as [es Hes].
  rewrite Hes. simpl. eauto using logRoutes_rec_only_logs.
Qed.

Lemma count_if_logRoutes p t last next format :
  (∀ f a, p (Printf f a) = false) →
  count_if p (logRoutes t last next format) = O.
Proof.
  intros Hp. apply count_if_zero. intros e He.
  apply logRoutes_only_logs in He as (f & a & ->). apply Hp.
Qed.

(** *** The merger *)

Lemma receive_fields st m :
  lastTable (receive st m) = lastTable st ∧
  once (receive st m) = once st ∧
  table (receive st m) = table st.
Proof. by destruct m. Qed.

Lemma count_if_warn p (err : option string) :
  (∀ f a, p (Printf f a) = false) →
  count_if p (match err with
              | Some e => [Printf "[WARN]: %s" [AStr e]]
              | None => []
              end) = O.
Proof. intros Hp. destruct err; [|done]. unfold count_if. simpl. by rewrite Hp. Qed.

(** The shape of an iteration of the default case, by the three ways it can
    go. *)
Lemma mergeStep_cases cfg st0 m :
  let st := receive st0 m in
  let next := combine st in
  (next = lastTable st0 ∧ mergeStep cfg st0 m = (st, []))
  ∨ (next ≠ lastTable st0 ∧ ∃ e,
       NewTable next = inr e ∧
       mergeStep cfg st0 m =
         (st,
          match (ParseAliases next).2 with
          | Some e => [Printf "[WARN]: %s" [AStr e]]
          | None => []
          end ++ [Register (ParseAliases next).1; CallNewTable next;
                  Printf "[WARN] %s" [AStr e]]))
  ∨ (next ≠ lastTable st0 ∧ ∃ t,
       NewTable next = inl t ∧
       mergeStep cfg st0 m =
         (mkMerger (svccfg st) (mancfg st) next true t,
          match (ParseAliases next).2 with
          | Some e => [Printf "[WARN]: %s" [AStr e]]
          | None => []
          end ++ [Register (ParseAliases next).1; CallNewTable next; SetTable t]
              ++ logRoutes t (lastTable st0) next (Log_RoutesFormat cfg)
              ++ (if once st0 then [] else [CloseFirst]))).
Proof.
  intros st next. unfold mergeStep. fold st. fold next.
  destruct (receive_fields st0 m) as (Hl & Ho & _). fold st in Hl, Ho.
  unfold Buffer.String. rewrite Hl, Ho.
  case_decide as Hskip; [by left|right].
  destruct (ParseAliases next) as [aliases err]. simpl.
  destruct (NewTable next) as [t|e] eqn:Hnew.
  - right. split; [done|]. exists t. split; [done|].
    unfold once_Do. by destruct (once st0).
  - left. split; [done|]. by exists e.
Qed.

Lemma combine_receive st m :
  combine (receive st m) =
    match m with
    | FromSvc s => s +:+ nl +:+ mancfg st
    | FromMan s => svccfg st +:+ nl +:+ s
    end.
Proof.
  unfold combine, Buffer.WriteString, Buffer.Reset.
  change (EmptyString +:+ svccfg (receive st m)) with (svccfg (receive st m)).
  rewrite append_assoc. by destruct m.
Qed.

Lemma combine_eq st : combine st = svccfg st +:+ nl +:+ mancfg st.
Proof.
  unfold combine, Buffer.WriteString, Buffer.Reset.
  change (EmptyString +:+ svccfg st) with (svccfg st). apply append_assoc.
Qed.

Lemma combinedInputs_cons st m ms :
  combinedInputs (svccfg st) (mancfg st) (m :: ms) =
    combine (receive st m)
      :: combinedInputs (svccfg (receive st m)) (mancfg (receive st m)) ms.
Proof. rewrite combine_receive. by destruct m. Qed.

(** An iteration keeps the received texts, and leaves a state whose combined
    text is the last applied one or fails to parse. *)
Lemma mergeStep_settled cfg st0 m :
  let st' := (mergeStep cfg st0 m).1 in
  svccfg st' = svccfg (receive st0 m) ∧
  mancfg st' = mancfg (receive st0 m) ∧
  (lastTable st' = combine st' ∨ ∃ e, NewTable (combine st') = inr e).
Proof.
  destruct (receive_fields st0 m) as (Hl & _ & _).
  destruct (mergeStep_cases cfg st0 m)
    as [[Heq ->]|[(Hne & e & Hnew & ->)|(Hne & t & Hnew & ->)]]; simpl.
  - repeat split; try done. left. congruence.
  - repeat split; try done. right. by exists e.
  - repeat split; try done. left. by rewrite !combine_eq.
Qed.

Lemma mergeStep_publications cfg st0 m :
  let next := combine (receive st0 m) in
  let es := (mergeStep cfg st0 m).2 in
  publications es = O ∨
  (publications es = 1%nat ∧ next ≠ lastTable st0 ∧ ∃ t, NewTable next = inl t).
Proof.
  unfold publications.
  destruct (mergeStep_cases cfg st0 m)
    as [[Heq ->]|[(Hne & e & Hnew & ->)|(Hne & t & Hnew & ->)]]; simpl.
  - by left.
  - left. rewrite count_if_app, count_if_warn by done. done.
  - right. split; [|by eauto].
    rewrite count_if_app, count_if_warn, !count_if_cons, count_if_app,
      count_if_logRoutes by done.
    by destruct (once st0).
Qed.

Lemma watchBackend_step_default cfg st m :
  Registry_Backend cfg ≠ "custom" → watchBackend_step cfg st m = mergeStep cfg st m.
Proof. intros Hb. unfold watchBackend_step. by case_decide. Qed.

(** The state holds the latest text of each stream. *)
Lemma watchBackend_loop_latest cfg st ms :
  Registry_Backend cfg ≠ "custom" →
  let st' := (watchBackend_loop cfg st ms).1 in
  svccfg st' =
    foldl (λ cur m, match m with FromSvc s => s | FromMan _ => cur end) (svccfg st) ms ∧
  mancfg st' =
    foldl (λ cur m, match m with FromMan s => s | FromSvc _ => cur end) (mancfg st) ms.
Proof.
  intros Hb. revert st. induction ms as [|m ms IH]; intros st; [done|].
  simpl. rewrite watchBackend_step_default by done.
  destruct (mergeStep_settled cfg st m) as (Hs & Hm & _).
  destruct (mergeStep cfg st m) as [st1 e1]. simpl in Hs, Hm.
  specialize (IH st1). destruct (watchBackend_loop cfg st1 ms) as [st2 e2].
  simpl in *. rewrite Hs, Hm in IH. by destruct m.
Qed.

(** From a settled state, every publication of a run answers a change of the
    combined input. *)
Lemma watchBackend_loop_bound cfg ms :
  Registry_Backend cfg ≠ "custom" →
  ∀ st,
    (lastTable st = combine st ∨ ∃ e, NewTable (combine st) = inr e) →
    (publications (watchBackend_loop cfg st ms).2
     ≤ changes (combine st) (combinedInputs (svccfg st) (mancfg st) ms))%nat.
Proof.
  intros Hb. induction ms as [|m ms IH]; intros st Hst; [done|].
  rewrite combinedInputs_cons. cbn [watchBackend_loop changes].
  rewrite watchBackend_step_default by done.
  destruct (mergeStep_settled cfg st m) as (Hs & Hm & Hset).
  pose proof (mergeStep_publications cfg st m) as Hpub.
  destruct (mergeStep cfg st m) as [st1 e1]. simpl in Hs, Hm, Hset, Hpub.
  specialize (IH st1 Hset).
  destruct (watchBackend_loop cfg st1 ms) as [st2 e2]. simpl in *.
  assert (combine st1 = combine (receive st m)) as Hc
    by (by rewrite !combine_eq, Hs, Hm).
  rewrite Hc, Hs, Hm in IH.
  unfold publications in *. rewrite count_if_app.
  destruct Hpub as [->|(-> & Hne & t & Hnew)]; [lia|].
  case_decide as Hsame; [|lia].
  exfalso. destruct Hst as [Hst|[e He]]; [congruence|].
  rewrite Hsame in Hnew. congruence.
Qed.

Lemma watchBackend_publications_bound cfg t0 ms :
  Registry_Backend cfg ≠ "custom" →
  (publications (watchBackend cfg t0 ms).2
   ≤ distinctInputs (combinedInputs EmptyString EmptyString ms))%nat.
Proof.
  intros Hb. unfold watchBackend. destruct ms as [|m ms]; [done|].
  change (combinedInputs EmptyString EmptyString (m :: ms)) with
    (combinedInputs (svccfg (watchBackend_init t0)) (mancfg (watchBackend_init t0))
       (m :: ms)).
  rewrite combinedInputs_cons. cbn [watchBackend_loop distinctInputs].
  rewrite watchBackend_step_default by done.
  destruct (mergeStep_settled cfg (watchBackend_init t0) m) as (Hs & Hm & Hset).
  pose proof (mergeStep_publications cfg (watchBackend_init t0) m) as Hpub.
  destruct (mergeStep cfg (watchBackend_init t0) m) as [st1 e1].
  simpl in Hs, Hm, Hset, Hpub.
  pose proof (watchBackend_loop_bound cfg ms Hb st1 Hset) as Hrest.
  destruct (watchBackend_loop cfg st1 ms) as [st2 e2]. simpl in *.
  assert (combine st1 = combine (receive (watchBackend_init t0) m)) as Hc
    by (by rewrite !combine_eq, Hs, Hm).
  rewrite Hc, Hs, Hm in Hrest.
  unfold publications in *. rewrite count_if_app.
  destruct Hpub as [->|(-> & _)]; lia.
Qed.

Lemma latest_snoc ms m :
  latestSvc (ms ++ [m]) =
    match m with FromSvc s => s | FromMan _ => latestSvc ms end ∧
  latestMan (ms ++ [m]) =
    match m with FromMan s => s | FromSvc _ => latestMan ms end.
Proof. unfold latestSvc, latestMan. by rewrite !foldl_app. Qed.

Lemma warn_only_logs (err : option string) e :
  e ∈ match err with
      | Some e => [Printf "[WARN]: %s" [AStr e]]
      | None => []
      end → ∃ f a, e = Printf f a.
Proof.
  destruct err; intros He.
  - apply list_elem_of_singleton in He. eauto.
  - by apply not_elem_of_nil in He.
Qed.

(** C1. On every message of either stream the merger combines the latest
    service text and the latest manual text as [svc + "\n" + man]. When the
    combined text equals the last applied text the iteration does nothing:
    no alias registration, no parse, no publication, and the state is as it
    was. Otherwise the table is built from the combined text, and a table is
    published only if that succeeds. Hence an iteration publishes at most
    once, and a run publishes at most once per distinct combined input. *)
Theorem merger_one_publication_per_distinct_input cfg t0 ms m :
  Registry_Backend cfg ≠ "custom" →
  let st := (watchBackend cfg t0 ms).1 in
  let next := latestSvc (ms ++ [m]) +:+ nl +:+ latestMan (ms ++ [m]) in
  let r := watchBackend_step cfg st m in
  (next = lastTable st →
     r.2 = [] ∧ lastTable r.1 = lastTable st ∧ table r.1 = table st ∧
     once r.1 = once st)
  ∧ (next ≠ lastTable st → CallNewTable next ∈ r.2)
  ∧ (∀ t, SetTable t ∈ r.2 → next ≠ lastTable st ∧ NewTable next = inl t)
  ∧ (publications r.2 ≤ 1)%nat
  ∧ (publications (watchBackend cfg t0 (ms ++ [m])).2
     ≤ distinctInputs (combinedInputs EmptyString EmptyString (ms ++ [m])))%nat.
Proof.
  intros Hb st next r.
  assert (combine (receive st m) = next) as Hnext.
  { destruct (watchBackend_loop_latest cfg (watchBackend_init t0) ms Hb) as [Hs Hm].
    destruct (latest_snoc ms m) as [Hs' Hm'].
    rewrite combine_receive. unfold next. rewrite Hs', Hm'.
    unfold st, watchBackend. rewrite Hs, Hm. by destruct m. }
  pose proof (mergeStep_publications cfg st m) as Hpub.
  destruct (receive_fields st m) as (Hl & Ho & Ht).
  unfold r. rewrite watchBackend_step_default by done.
  pose proof (watchBackend_publications_bound cfg t0 (ms ++ [m]) Hb) as Hrun.
  destruct (mergeStep_cases cfg st m)
    as [[Heq Hr]|[(Hne & e & Hnew & Hr)|(Hne & t & Hnew & Hr)]];
    rewrite Hr in *; rewrite Hnext in *; simpl; clear Hr.
  - split; [intros _|split; [intros Hdiff|split; [intros t' Hin|split]]].
    + by rewrite Hl, Ho, Ht.
    + done.
    + by apply not_elem_of_nil in Hin.
    + unfold publications, count_if. simpl. lia.
    + done.
  - split; [intros Hsame|split; [intros _|split; [intros t' Hin|split]]].
    + done.
    + apply elem_of_app. right. apply elem_of_cons. right. by left.
    + exfalso. rewrite elem_of_app, !elem_of_cons, elem_of_nil in Hin.
      destruct Hin as [Hw|[?|[?|[?|[]]]]]; try done.
      by apply warn_only_logs in Hw as (? & ? & ?).
    + destruct Hpub as [Hp|[Hp _]]; simpl in Hp; lia.
    + done.
  - split; [intros Hsame|split; [intros _|split; [intros t' Hin|split]]].
    + done.
    + apply elem_of_app. right. apply elem_of_cons. right. by left.
    + rewrite elem_of_app, !elem_of_cons, !elem_of_app in Hin.
      destruct Hin as [Hw|[?|[?|[?|[Hw|Hw]]]]]; simplify_eq; try done.
      * by apply warn_only_logs in Hw as (? & ? & ?).
      * by apply logRoutes_only_logs in Hw as (? & ? & ?).
      * destruct (once st).
        -- by apply not_elem_of_nil in Hw.
        -- by apply list_elem_of_singleton in Hw.
    + destruct Hpub as [Hp|[Hp _]]; simpl in Hp; lia.
    + done.
Qed.

(** *** The first-table-ready signal *)

Lemma count_if_logs p (l : list Effect) :
  (∀ f a, p (Printf f a) = false) →
  (∀ e, e ∈ l → ∃ f a, e = Printf f a) → count_if p l = O.
Proof.
  intros Hp Hl. apply count_if_zero. intros e He.
  apply Hl in He as (f & a & ->). apply Hp.
Qed.

(** An iteration of the default case either publishes nothing and leaves
    the signal alone, or publishes one table; it signals after that
    publication exactly when the signal was not given before. *)
Lemma mergeStep_first cfg st m :
  let r := mergeStep cfg st m in
  (once r.1 = once st ∧ publications r.2 = O ∧ count_if is_CloseFirst r.2 = O)
  ∨ (once r.1 = true ∧
     ∃ pre t logs,
       r.2 = pre ++ SetTable t :: logs ++ (if once st then [] else [CloseFirst]) ∧
       publications pre = O ∧ count_if is_CloseFirst pre = O ∧
       (∀ e, e ∈ logs → ∃ f a, e = Printf f a)).
Proof.
  destruct (receive_fields st m) as (Hl & Ho & Ht). unfold publications.
  destruct (mergeStep_cases cfg st m)
    as [[Heq ->]|[(Hne & e & Hnew & ->)|(Hne & t & Hnew & ->)]]; simpl.
  - left. by rewrite Ho.
  - left. by rewrite Ho, !count_if_app, !count_if_warn.
  - right. split; [done|].
    eexists (_ ++ [_; _]), t, _. split; [by rewrite <- app_assoc|].
    rewrite !count_if_app, !count_if_warn by done.
    split_and!; try done. apply logRoutes_only_logs.
Qed.

Lemma customStep_first st text :
  customStep st (FromSvc text) =
    (mkMerger (svccfg st) (mancfg st) (lastTable st) true (table st),
     (if decide (text ≠ "OK")
      then [Printf "[ERROR] error during update from custom back end - %s"
              [AStr text]]
      else [])
     ++ (if once st then [] else [CloseFirst])).
Proof. unfold customStep, once_Do. by destruct (once st). Qed.

(** An iteration signals at most once, and only if no iteration did before. *)
Lemma watchBackend_step_signal cfg st m :
  let r := watchBackend_step cfg st m in
  (count_if is_CloseFirst r.2 ≤ 1)%nat ∧
  (once st = true → once r.1 = true ∧ count_if is_CloseFirst r.2 = O) ∧
  (count_if is_CloseFirst r.2 = 1%nat → once r.1 = true).
Proof.
  unfold watchBackend_step. case_decide as Hb.
  - destruct m as [text|text].
    + rewrite customStep_first. cbn [fst snd once]. rewrite count_if_app.
      assert (∀ es, es = (if decide (text ≠ "OK")
                then [Printf "[ERROR] error during update from custom back end - %s"
                        [AStr text]]
                else []) → count_if is_CloseFirst es = O) as Hrep
        by (intros es ->; by case_decide).
      rewrite (Hrep _ eq_refl).
      destruct (once st); unfold count_if; simpl; split_and!; intros; try done; lia.
    + simpl. split_and!; [unfold count_if; simpl; lia|done|done].
  - destruct (mergeStep_first cfg st m)
      as [(Ho & _ & Hc)|(Ho & pre & t & logs & -> & _ & Hpre & Hlogs)].
    + rewrite Ho, Hc. split_and!; [lia|done|done].
    + rewrite Ho, count_if_app, count_if_cons, count_if_app, Hpre,
        (count_if_logs _ logs) by done.
      destruct (once st); unfold count_if; simpl; split_and!; intros; try done; lia.
Qed.

Lemma watchBackend_loop_signal cfg ms :
  ∀ st,
    (count_if is_CloseFirst (watchBackend_loop cfg st ms).2
     ≤ if once st then 0 else 1)%nat.
Proof.
  induction ms as [|m ms IH]; intros st.
  - unfold count_if. simpl. destruct (once st); lia.
  - cbn [watchBackend_loop].
    destruct (watchBackend_step_signal cfg st m) as (Hle & Hdone & Hone).
    destruct (watchBackend_step cfg st m) as [st1 e1]. simpl in *.
    specialize (IH st1). destruct (watchBackend_loop cfg st1 ms) as [st2 e2].
    simpl in *. rewrite count_if_app.
    destruct (once st).
    + destruct Hdone as [Ho ->]; [done|]. rewrite Ho in IH. lia.
    + destruct (decide (count_if is_CloseFirst e1 = 1%nat)) as [H1|H1].
      * rewrite (Hone H1) in IH. lia.
      * destruct (once st1); lia.
Qed.

(** From a state that has not signalled, a run of the default case either
    never publishes and never signals, or signals right after its first
    publication and never again. *)
Lemma watchBackend_loop_first cfg ms :
  Registry_Backend cfg ≠ "custom" →
  ∀ st, once st = false →
    let tr := (watchBackend_loop cfg st ms).2 in
    (publications tr = O ∧ count_if is_CloseFirst tr = O)
    ∨ (∃ pre t logs post,
         tr = pre ++ SetTable t :: logs ++ CloseFirst :: post ∧
         publications pre = O ∧ count_if is_CloseFirst pre = O ∧
         (∀ e, e ∈ logs → ∃ f a, e = Printf f a) ∧
         count_if is_CloseFirst post = O).
Proof.
  intros Hb. induction ms as [|m ms IH]; intros st Hst; [by left|].
  cbn [watchBackend_loop]. rewrite watchBackend_step_default by done.
  pose proof (mergeStep_first cfg st m) as Hstep.
  destruct (mergeStep cfg st m) as [st1 e1]. simpl in Hstep.
  pose proof (watchBackend_loop_signal cfg ms st1) as Hsig.
  specialize (IH st1).
  destruct (watchBackend_loop cfg st1 ms) as [st2 e2]. simpl in *.
  destruct Hstep as [(Ho & Hp & Hc)|(Ho & pre & t & logs & -> & Hp & Hc & Hlogs)].
  - rewrite Hst in Ho. destruct (IH Ho) as
      [[Hp2 Hc2]|(pre & t & logs & post & -> & Hp2 & Hc2 & Hlogs & Hpost)].
    + left. unfold publications in *. rewrite !count_if_app. lia.
    + right. exists (e1 ++ pre), t, logs, post.
      unfold publications in *. rewrite !count_if_app, <- app_assoc.
      split_and!; try done; lia.
  - right. rewrite Hst, Ho in *. exists pre, t, logs, e2.
    split; [|split_and!; try done; lia].
    rewrite <- app_assoc. simpl. by rewrite <- app_assoc.
Qed.

Lemma combine_nonempty st : combine st ≠ EmptyString.
Proof.
  rewrite combine_eq. intros Heq. apply append_empty in Heq as [_ Heq].
  by apply append_empty in Heq as [Heq _].
Qed.

Lemma warn_no_signal (err : option string) :
  CloseFirst ∉ match err with
               | Some e => [Printf "[WARN]: %s" [AStr e]]
               | None => []
               end.
Proof. intros Hin. by apply warn_only_logs in Hin as (? & ? & ?). Qed.

Lemma loop_signal_iff cfg ms :
  Registry_Backend cfg ≠ "custom" →
  ∀ st, once st = false → lastTable st = EmptyString →
    (CloseFirst ∈ (watchBackend_loop cfg st ms).2 ↔
     ∃ c t, c ∈ combinedInputs (svccfg st) (mancfg st) ms ∧ NewTable c = inl t).
Proof.
  intros Hb. induction ms as [|m ms IH]; intros st Ho Hl.
  - simpl. split; [by intros ?%not_elem_of_nil|].
    intros (c & t & Hc & _). by apply not_elem_of_nil in Hc.
  - rewrite combinedInputs_cons. cbn [watchBackend_loop].
    rewrite watchBackend_step_default by done.
    destruct (receive_fields st m) as (Hl' & Ho' & _).
    destruct (mergeStep_cases cfg st m)
      as [[Heq Hr]|[(Hne & e & Hnew & Hr)|(Hne & t & Hnew & Hr)]]; rewrite Hr.
    + exfalso. rewrite Hl in Heq. by apply combine_nonempty in Heq.
    + specialize (IH (receive st m)).
      destruct (watchBackend_loop cfg (receive st m) ms) as [st2 e2].
      cbn [fst snd] in *. rewrite !elem_of_app, IH by congruence. split.
      * intros [[Hw|Hin]|(c & t & Hc & Ht)].
        -- by apply warn_no_signal in Hw.
        -- rewrite !elem_of_cons, elem_of_nil in Hin. by destruct Hin as [?|[?|[?|[]]]].
        -- exists c, t. split; [by right|done].
      * intros (c & t & [->|Hc]%elem_of_cons & Ht); [congruence|].
        right. by exists c, t.
    + destruct (watchBackend_loop cfg _ ms) as [st2 e2]. cbn [fst snd]. split.
      * intros _. exists (combine (receive st m)), t. split; [by left|done].
      * intros _. rewrite Ho.
        apply elem_of_app; left. do 3 (apply elem_of_app; right). by left.
Qed.

Lemma customLoop_signal_iff cfg ms :
  Registry_Backend cfg = "custom" →
  ∀ st, once st = false →
    (CloseFirst ∈ (watchBackend_loop cfg st ms).2 ↔ ∃ text, FromSvc text ∈ ms).
Proof.
  intros Hb. induction ms as [|m ms IH]; intros st Ho.
  - simpl. split; [by intros ?%not_elem_of_nil|].
    intros (text & Hin). by apply not_elem_of_nil in Hin.
  - cbn [watchBackend_loop]. unfold watchBackend_step. rewrite decide_True by done.
    destruct m as [text|text].
    + rewrite customStep_first, Ho.
      destruct (watchBackend_loop cfg _ ms) as [st2 e2]. cbn [fst snd]. split.
      * intros _. exists text. by left.
      * intros _. apply elem_of_app; left. apply elem_of_app; right. by left.
    + simpl. specialize (IH st Ho).
      destruct (watchBackend_loop cfg st ms) as [st2 e2]. cbn [fst snd] in *.
      rewrite IH. split.
      * intros (text' & Hin). exists text'. by right.
      * intros (text' & [?|Hin]%elem_of_cons); [done|]. by exists text'.
Qed.

(** C3. The merger closes [first] at most once in any run, whatever the
    backend. With a backend other than the custom one, a run that publishes
    no table does not signal, and a run that publishes signals right after
    the first [route.SetTable] (only the route log lies between) and never
    again; and the run does signal as soon as it must: [first] is closed if
    and only if the combined text of some message of the run parses. With
    the custom backend [first] is closed if and only if a message has come
    on the services stream. *)
Theorem first_table_ready_signalled_once cfg t0 ms :
  let tr := (watchBackend cfg t0 ms).2 in
  (count_if is_CloseFirst tr ≤ 1)%nat
  ∧ (Registry_Backend cfg ≠ "custom" →
     (publications tr = O ∧ count_if is_CloseFirst tr = O)
     ∨ (∃ pre t logs post,
          tr = pre ++ SetTable t :: logs ++ CloseFirst :: post ∧
          publications pre = O ∧ count_if is_CloseFirst pre = O ∧
          (∀ e, e ∈ logs → ∃ f a, e = Printf f a) ∧
          count_if is_CloseFirst post = O))
  ∧ (Registry_Backend cfg ≠ "custom" →
     (CloseFirst ∈ tr ↔
      ∃ c t, c ∈ combinedInputs EmptyString EmptyString ms ∧ NewTable c = inl t))
  ∧ (Registry_Backend cfg = "custom" →
     (CloseFirst ∈ tr ↔ ∃ text, FromSvc text ∈ ms)).
Proof.
  split_and!.
  - apply (watchBackend_loop_signal cfg ms (watchBackend_init t0)).
  - intros Hb. by apply watchBackend_loop_first.
  - intros Hb. by apply (loop_signal_iff cfg ms Hb (watchBackend_init t0)).
  - intros Hb. by apply (customLoop_signal_iff cfg ms Hb (watchBackend_init t0)).
Qed.

(** C10. With the custom backend the first message of the services stream
    closes [first] whatever it says: a message other than [OK] is logged as
    an error first, and the signal follows as it does for [OK]; no later
    message signals again. *)
Theorem custom_backend_first_message_signals cfg t0 text ms :
  Registry_Backend cfg = "custom" →
  ∃ rest,
    (watchBackend cfg t0 (FromSvc text :: ms)).2 =
      (if decide (text = "OK") then []
       else [Printf "[ERROR] error during update from custom back end - %s"
               [AStr text]])
      ++ CloseFirst :: rest
    ∧ count_if is_CloseFirst rest = O.
Proof.
  intros Hb. unfold watchBackend. cbn [watchBackend_loop].
  unfold watchBackend_step. rewrite decide_True by done.
  rewrite customStep_first. cbn [once watchBackend_init].
  pose proof (watchBackend_loop_signal cfg ms
    (mkMerger EmptyString EmptyString EmptyString true t0)) as Hsig.
  destruct (watchBackend_loop cfg _ ms) as [st2 e2]. simpl in Hsig.
  exists e2. split; [|lia]. cbn [snd].
  rewrite <- app_assoc. f_equal. by repeat case_decide.
Qed.

(** The last applied text of a run is empty or a text that parses. *)
Lemma watchBackend_loop_applied cfg ms :
  Registry_Backend cfg ≠ "custom" →
  ∀ st,
    (lastTable st = EmptyString ∨ ∃ t, NewTable (lastTable st) = inl t) →
    lastTable (watchBackend_loop cfg st ms).1 = EmptyString ∨
    ∃ t, NewTable (lastTable (watchBackend_loop cfg st ms).1) = inl t.
Proof.
  intros Hb. induction ms as [|m ms IH]; intros st Hst; [done|].
  cbn [watchBackend_loop]. rewrite watchBackend_step_default by done.
  destruct (receive_fields st m) as (Hl & _ & _).
  assert (lastTable (mergeStep cfg st m).1 = EmptyString ∨
          ∃ t, NewTable (lastTable (mergeStep cfg st m).1) = inl t) as Hst1.
  { destruct (mergeStep_cases cfg st m)
      as [[Heq ->]|[(Hne & e & Hnew & ->)|(Hne & t & Hnew & ->)]]; simpl.
    - by rewrite Hl.
    - by rewrite Hl.
    - right. by exists t. }
  destruct (mergeStep cfg st m) as [st1 e1]. simpl in Hst1.
  specialize (IH st1 Hst1). by destruct (watchBackend_loop cfg st1 ms).
Qed.

(** C2. At any point of a run, when the table cannot be built from the
    combined text of the message received, the iteration ends by logging the
    error as a warning and publishes nothing: [route.SetTable] is not called,
    the current table and the last applied text stay as they were, [first]
    is not closed, nothing ends the process and the loop goes on with the
    messages that follow. *)
Theorem merger_keeps_table_on_parse_failure cfg t0 ms m ms' e :
  Registry_Backend cfg ≠ "custom" →
  let st := (watchBackend cfg t0 ms).1 in
  let next := latestSvc (ms ++ [m]) +:+ nl +:+ latestMan (ms ++ [m]) in
  NewTable next = inr e →
  let r := watchBackend_step cfg st m in
  last r.2 = Some (Printf "[WARN] %s" [AStr e])
  ∧ publications r.2 = O
  ∧ table r.1 = table st
  ∧ lastTable r.1 = lastTable st
  ∧ count_if is_exit r.2 = O
  ∧ count_if is_CloseFirst r.2 = O
  ∧ watchBackend_loop cfg st (m :: ms') =
      (let '(st2, e2) := watchBackend_loop cfg r.1 ms' in (st2, r.2 ++ e2)).
Proof.
  intros Hb st next Hfail r.
  assert (combine (receive st m) = next) as Hnext.
  { destruct (watchBackend_loop_latest cfg (watchBackend_init t0) ms Hb) as [Hs Hm].
    destruct (latest_snoc ms m) as [Hs' Hm'].
    rewrite combine_receive. unfold next. rewrite Hs', Hm'.
    unfold st, watchBackend. rewrite Hs, Hm. by destruct m. }
  assert (next ≠ lastTable st) as Hdiff.
  { intros Heq.
    destruct (watchBackend_loop_applied cfg ms Hb (watchBackend_init t0)) as [Hl|[t Hl]];
      [by left| |].
    - fold (watchBackend cfg t0 ms) in Hl. fold st in Hl. rewrite Hl in Heq.
      unfold next in Heq. apply append_empty in Heq as [_ Heq].
      by apply append_empty in Heq as [Heq _].
    - fold (watchBackend cfg t0 ms) in Hl. fold st in Hl. congruence. }
  destruct (receive_fields st m) as (Hl & Ho & Ht).
  assert (watchBackend_loop cfg st (m :: ms') =
            (let '(st2, e2) := watchBackend_loop cfg r.1 ms' in (st2, r.2 ++ e2)))
    as Hloop.
  { cbn [watchBackend_loop]. unfold r. by destruct (watchBackend_step cfg st m). }
  revert Hloop. unfold r. rewrite watchBackend_step_default by done.
  destruct (mergeStep_cases cfg st m)
    as [[Heq Hr]|[(Hne & e' & Hnew & Hr)|(Hne & t & Hnew & Hr)]];
    rewrite Hr; rewrite Hnext in *; simpl; intros Hloop.
  - done.
  - assert (e' = e) as -> by congruence.
    split_and!; try done.
    + by rewrite last_app.
    + unfold publications. by rewrite count_if_app, count_if_warn.
    + by rewrite count_if_app, count_if_warn.
    + by rewrite count_if_app, count_if_warn.
  - congruence.
Qed.

(** C9. Whenever the combined text differs from the last applied one, the
    iteration registers the aliases parsed from it and only then builds the
    table, with nothing but a log line before the registration; so the
    aliases are registered also when the construction fails, in which case
    all that follows is the warning and no table is published. *)
Theorem merger_registers_aliases_before_table cfg st m :
  Registry_Backend cfg ≠ "custom" →
  let next := svccfg (receive st m) +:+ nl +:+ mancfg (receive st m) in
  next ≠ lastTable st →
  ∃ pre post,
    (watchBackend_step cfg st m).2 =
      pre ++ Register (ParseAliases next).1 :: CallNewTable next :: post
    ∧ (∀ e, e ∈ pre → ∃ f a, e = Printf f a)
    ∧ (∀ err, NewTable next = inr err →
         post = [Printf "[WARN] %s" [AStr err]] ∧
         table (watchBackend_step cfg st m).1 = table st).
Proof.
  intros Hb next Hdiff.
  assert (combine (receive st m) = next) as Hnext by apply combine_eq.
  destruct (receive_fields st m) as (Hl & Ho & Ht).
  rewrite watchBackend_step_default by done.
  destruct (mergeStep_cases cfg st m)
    as [[Heq Hr]|[(Hne & e' & Hnew & Hr)|(Hne & t & Hnew & Hr)]];
    rewrite Hr; rewrite Hnext in *; simpl.
  - done.
  - eexists _, _. split; [done|]. split; [apply warn_only_logs|].
    intros err Herr. split; [congruence|done].
  - eexists _, _. split; [done|]. split; [apply warn_only_logs|].
    intros err Herr. congruence.
Qed.

(** *** logRoutes, the no-route HTML and the SNI matcher *)

Lemma fmtDiff_step_empty b d :
  fmtDiff_step b d = EmptyString ↔
  b = EmptyString ∧ (Type_ d = DiffEqual ∨ TrimSpace (Text d) = EmptyString).
Proof.
  unfold fmtDiff_step, Buffer.WriteString.
  case_decide as Ht; [split; [by auto|by intros [-> _]]|].
  destruct (Type_ d); split.
  - intros Heq. apply append_empty in Heq as [Heq _].
    by apply append_empty in Heq as [_ Heq].
  - by intros [_ [?|?]].
  - auto.
  - by intros [-> _].
  - intros Heq. apply append_empty in Heq as [Heq _].
    by apply append_empty in Heq as [_ Heq].
  - by intros [_ [?|?]].
Qed.

Lemma foldl_fmtDiff_empty ds :
  ∀ b, foldl fmtDiff_step b ds = EmptyString ↔
       b = EmptyString ∧
       ∀ d, d ∈ ds → Type_ d = DiffEqual ∨ TrimSpace (Text d) = EmptyString.
Proof.
  induction ds as [|d ds IH]; intros b; simpl.
  - split; [intros ->; split; [done|]|by intros [-> _]].
    intros d Hd. by apply not_elem_of_nil in Hd.
  - rewrite IH, fmtDiff_step_empty. split.
    + intros [[-> Hd] Hds]. split; [done|].
      intros d' [->|Hd']%elem_of_cons; auto.
    + intros [-> Hall]. split_and!; [done| |].
      * apply Hall. by left.
      * intros d' Hd'. apply Hall. by right.
Qed.

(** C4. [logRoutes] returns for every format string. The format [detail]
    logs the dump of the table, [all] logs the new config text, [delta] logs
    the formatted diff of the last against the next text and logs nothing
    when that is empty, which is when every inserted or deleted piece is
    empty once trimmed; any other format logs a warning and then does what
    [delta] does. *)
Theorem logRoutes_formats t last next format :
  let delta := fmtDiff (DiffMain last next true) in
  (∀ fuel,
     logRoutes_rec (S (S fuel)) t last next format =
       Some (logRoutes t last next format))
  ∧ logRoutes t last next "detail" =
      [Printf ("[INFO] Updated config to" +:+ nl +:+ "%s") [AStr (Dump t)]]
  ∧ logRoutes t last next "all" =
      [Printf ("[INFO] Updated config to" +:+ nl +:+ "%s") [AStr next]]
  ∧ logRoutes t last next "delta" =
      (if decide (delta = EmptyString) then []
       else [Printf ("[INFO] Config updates" +:+ nl +:+ "%s") [AStr delta]])
  ∧ (delta = EmptyString ↔
     ∀ d, d ∈ DiffMain last next true →
          Type_ d = DiffEqual ∨ TrimSpace (Text d) = EmptyString)
  ∧ (format ∉ ["detail"; "delta"; "all"] →
     logRoutes t last next format =
       Printf "[WARN] Invalid route format %q. Defaulting to %q"
         [AStr format; AStr "delta"]
       :: logRoutes t last next "delta").
Proof.
  intros delta. split_and!.
  - intros fuel. unfold logRoutes. cbn [logRoutes_rec].
    repeat case_decide; try done.
    all: unfold defFormat; by rewrite !logRoutes_rec_delta.
  - done.
  - done.
  - unfold logRoutes. rewrite logRoutes_rec_delta. fold delta. simpl.
    by repeat case_decide.
  - unfold delta, fmtDiff, Buffer.String. rewrite foldl_fmtDiff_empty.
    split; [by intros [_ Hall]|by intros Hall].
  - intros Hother. unfold logRoutes.
    rewrite (logRoutes_rec_other 1), (logRoutes_rec_delta 0), (logRoutes_rec_delta 1)
      by done.
    done.
Qed.

Lemma last_cons_default (x : string) l d d' :
  List.last (x :: l) d = List.last (x :: l) d'.
Proof. revert x. induction l as [|y l IH]; intros x; [done|]. apply (IH y). Qed.

Lemma watchNoRouteHTML_run values :
  ∀ html,
    (watchNoRouteHTML html values).1 = List.last values html ∧
    count_if is_SetHTML (watchNoRouteHTML html values).2 = changes html values.
Proof.
  induction values as [|next values IH]; intros html; [done|].
  cbn [watchNoRouteHTML changes]. unfold watchNoRouteHTML_step.
  case_decide as Heq.
  - subst next. destruct (IH html) as [Hcell Hcount].
    destruct (watchNoRouteHTML html values) as [html2 e2]. simpl in *.
    split; [|done]. rewrite Hcell. by destruct values.
  - destruct (IH next) as [Hcell Hcount].
    destruct (watchNoRouteHTML next values) as [html2 e2]. simpl in *.
    split; [rewrite Hcell; destruct values; [done|apply last_cons_default]|].
    rewrite !count_if_cons. simpl. rewrite Hcount. by case_decide.
Qed.

(** C5. For every value received on the no-route HTML stream,
    [noroute.SetHTML] is called, with that value, if and only if the value
    differs from the one stored; when it is equal the iteration does nothing
    and the cell keeps its content. So after any run the cell holds the last
    value received, and it was replaced once for every value that differed
    from the one before it. *)
Theorem noroute_html_set_if_changed html next values :
  let r := watchNoRouteHTML_step html next in
  (SetHTML next ∈ r.2 ↔ next ≠ html)
  ∧ (∀ v, SetHTML v ∈ r.2 → v = next)
  ∧ r.1 = next
  ∧ (next = html → r = (html, []))
  ∧ (watchNoRouteHTML html values).1 = List.last values html
  ∧ count_if is_SetHTML (watchNoRouteHTML html values).2 = changes html values.
Proof.
  destruct (watchNoRouteHTML_run values html) as [Hcell Hcount].
  unfold watchNoRouteHTML_step. case_decide as Heq; simpl.
  - split; [split; [intros Hin; by apply not_elem_of_nil in Hin|done]|].
    split; [intros v Hin; by apply not_elem_of_nil in Hin|].
    by repeat split.
  - split; [split; [done|intros _; by left]|].
    split; [|by repeat split].
    intros v [Hv|Hv]%elem_of_cons; [congruence|].
    apply list_elem_of_singleton in Hv. by case_decide.
Qed.

(** C7. The matcher handed to the https+tcp+sni listener holds of a name
    exactly when host lookup on it yields a target whose effective protocol
    is [tcp]: the value of [opts["proto"]] if present, otherwise the scheme
    of the target URL. The listener hands the raw connection to the TCP+SNI
    proxy when the matcher holds and to the HTTP proxy when it does not. *)
Theorem sni_matcher_dispatch cfg tbl host :
  (lookupHostMatcher cfg tbl host = true ↔
   ∃ t, LookupHost tbl host (Proxy_Strategy cfg) = Some t ∧
        effectiveProto t = Some "tcp")
  ∧ ListenAndServeHTTPSTCPSNI_dispatch (lookupHostMatcher cfg tbl) host =
      (if lookupHostMatcher cfg tbl host then ToTCPSNIProxy else ToHTTPProxy).
Proof.
  split; [|done]. unfold lookupHostMatcher, effectiveProto.
  destruct (LookupHost tbl host (Proxy_Strategy cfg)) as [t|];
    [|split; [done|by intros (t & Ht & _)]].
  destruct (Opts t !! "proto") as [p|] eqn:Hp.
  - rewrite bool_decide_eq_true. split.
    + intros <-. exists t. by rewrite Hp.
    + intros (t' & [= <-] & Ht'). rewrite Hp in Ht'. congruence.
  - destruct (TURL t) as [u|] eqn:Hu; rewrite bool_decide_eq_true.
    + split.
      * intros Hs. exists t. by rewrite Hp, Hu, Hs.
      * intros (t' & [= <-] & Ht'). rewrite Hp, Hu in Ht'. simpl in Ht'. congruence.
    + split; [done|].
      intros (t' & [= <-] & Ht'). by rewrite Hp, Hu in Ht'.
Qed.


(** *** initBackend *)

Lemma count_if_no_sleep (l : list Effect) d :
  count_if is_Sleep l = O → Sleep d ∉ l.
Proof.
  induction l as [|c l IH]; [intros _; apply not_elem_of_nil|].
  rewrite count_if_cons, not_elem_of_cons. intros Hc.
  destruct c; simpl in Hc; try done; split; try done; apply IH; lia.
Qed.

(** What an iteration does after a failed attempt, by the deadline test and
    the shutdown flag. *)
Lemma initBackend_loop_failed cfg deadline a rest e :
  knownBackend (Registry_Backend cfg) = true →
  failure a = Some e →
  ∃ calls,
    count_if is_attempt calls = 1%nat ∧ count_if is_Sleep calls = O ∧
    count_if is_exit calls = O ∧
    initBackend_loop cfg deadline (a :: rest) =
      let warn := Print [AStr "[WARN] Error initializing backend. "; AStr e] in
      if now a >? deadline then
        (Exited 1,
         calls ++ [warn; ExitFatal [AStr "[FATAL] Timeout registering backend."]])
      else if shuttingDown a >? 0 then
        (Exited 1, calls ++ [warn; Sleep (Registry_Retry cfg); ExitExit 1])
      else
        ((initBackend_loop cfg deadline rest).1,
         calls ++ [warn; Sleep (Registry_Retry cfg)]
               ++ (initBackend_loop cfg deadline rest).2).
Proof.
  intros Hk Hf. cbn [initBackend_loop]. rewrite Hk. cbn [negb].
  unfold failure in Hf.
  destruct (newBackend_err a) as [e'|]; simplify_eq.
  - exists [CallNewBackend (Registry_Backend cfg)]. split_and!; try done.
    cbn zeta. destruct (now a >? deadline); [done|].
    destruct (shuttingDown a >? 0); [done|].
    by destruct (initBackend_loop cfg deadline rest).
  - rewrite Hf. exists [CallNewBackend (Registry_Backend cfg); Register []].
    split_and!; try done.
    cbn zeta. destruct (now a >? deadline); [done|].
    destruct (shuttingDown a >? 0); [done|].
    by destruct (initBackend_loop cfg deadline rest).
Qed.

Lemma initBackend_loop_succeeded cfg deadline a rest :
  knownBackend (Registry_Backend cfg) = true →
  failure a = None →
  initBackend_loop cfg deadline (a :: rest) =
    (Returned, [CallNewBackend (Registry_Backend cfg); Register []]).
Proof.
  intros Hk Hf. cbn [initBackend_loop]. rewrite Hk. cbn [negb].
  unfold failure in Hf. destruct (newBackend_err a); [done|]. by rewrite Hf.
Qed.

(** After attempts that are all retried, the loop is at the next attempt,
    having slept [registry.retry] once after each of them. *)
Lemma initBackend_loop_retried cfg deadline pre more :
  knownBackend (Registry_Backend cfg) = true →
  Forall (retried deadline) pre →
  ∃ tr,
    initBackend_loop cfg deadline (pre ++ more) =
      ((initBackend_loop cfg deadline more).1,
       tr ++ (initBackend_loop cfg deadline more).2) ∧
    count_if is_attempt tr = length pre ∧
    count_if is_Sleep tr = length pre ∧
    count_if is_exit tr = O ∧
    (∀ d, Sleep d ∈ tr → d = Registry_Retry cfg).
Proof.
  intros Hk. induction 1 as [|a pre ([e He] & Hnow & Hflag) _ (tr & IH & Ha & Hs & Hx & Hd)].
  - exists []. split_and!; try done.
    + simpl. by destruct (initBackend_loop cfg deadline more).
    + intros d Hin. by apply not_elem_of_nil in Hin.
  - destruct (initBackend_loop_failed cfg deadline a (pre ++ more) e Hk He)
      as (calls & Hca & Hcs & Hcx & Heq).
    rewrite <- app_comm_cons, Heq. cbn zeta.
    assert ((now a >? deadline) = false) as -> by lia.
    assert ((shuttingDown a >? 0) = false) as -> by lia.
    rewrite IH. cbn [fst snd].
    exists (calls ++ [Print [AStr "[WARN] Error initializing backend. "; AStr e];
                      Sleep (Registry_Retry cfg)] ++ tr).
    rewrite !count_if_app, Hca, Hcs, Hcx, Ha, Hs, Hx.
    split_and!; try done.
    + by rewrite <- !app_assoc.
    + intros d. rewrite !elem_of_app, !elem_of_cons, elem_of_nil.
      intros [Hin|[[?|[?|[]]]|Hin]]; simplify_eq; [|done|by apply Hd].
      by apply count_if_no_sleep in Hin.
Qed.

(** C8. With a known backend, as long as attempts fail before the deadline
    [start + registry.timeout] and the shutdown flag is not set, the loop
    tries again, sleeping [registry.retry] after each of them (the attempts
    [pre]). At the next attempt [a] the function returns if the backend is
    created and registered; if the attempt fails and the deadline has passed
    it logs the error and ends the process by [exit.Fatal]; if it fails
    before the deadline it sleeps [registry.retry], then reads the shutdown
    flag and calls [exit.Exit(1)] if it is set, and tries again if not. *)
Theorem initBackend_retries_until_deadline cfg start pre a rest :
  knownBackend (Registry_Backend cfg) = true →
  let deadline := start + Registry_Timeout cfg in
  Forall (retried deadline) pre →
  let r := initBackend cfg start (pre ++ a :: rest) in
  ∃ tr,
    count_if is_attempt tr = S (length pre) ∧
    count_if is_Sleep tr = length pre ∧
    count_if is_exit tr = O ∧
    (∀ d, Sleep d ∈ tr → d = Registry_Retry cfg) ∧
    match failure a with
    | None => r = (Returned, tr)
    | Some e =>
        let warn := Print [AStr "[WARN] Error initializing backend. "; AStr e] in
        if bool_decide (deadline < now a) then
          r = (Exited 1,
               tr ++ [warn; ExitFatal [AStr "[FATAL] Timeout registering backend."]])
        else if bool_decide (0 < shuttingDown a) then
          r = (Exited 1, tr ++ [warn; Sleep (Registry_Retry cfg); ExitExit 1])
        else
          r = ((initBackend_loop cfg deadline rest).1,
               tr ++ [warn; Sleep (Registry_Retry cfg)]
                  ++ (initBackend_loop cfg deadline rest).2)
    end.
Proof.
  intros Hk deadline Hpre r.
  destruct (initBackend_loop_retried cfg deadline pre (a :: rest) Hk Hpre)
    as (tr & Heq & Ha & Hs & Hx & Hd).
  unfold r, initBackend. fold deadline. rewrite Heq. clear Heq.
  destruct (failure a) as [e|] eqn:Hf.
  - destruct (initBackend_loop_failed cfg deadline a rest e Hk Hf)
      as (calls & Hca & Hcs & Hcx & ->).
    exists (tr ++ calls). rewrite !count_if_app, Ha, Hs, Hx, Hca, Hcs, Hcx.
    split_and!; [lia|lia|done| |].
    + intros d [Hin|Hin]%elem_of_app; [by apply Hd|].
      by apply count_if_no_sleep in Hin.
    + cbn zeta.
      destruct (Z.gtb_spec (now a) deadline) as [Hlate|Hlate].
      { rewrite bool_decide_eq_true_2 by lia. cbn [fst snd]. by rewrite <- app_assoc. }
      rewrite bool_decide_eq_false_2 by lia.
      destruct (Z.gtb_spec (shuttingDown a) 0) as [Hdown|Hdown].
      { rewrite bool_decide_eq_true_2 by lia. cbn [fst snd]. by rewrite <- app_assoc. }
      rewrite bool_decide_eq_false_2 by lia. cbn [fst snd].
      by rewrite <- !app_assoc.
  - rewrite (initBackend_loop_succeeded cfg deadline a rest Hk Hf). cbn [fst snd].
    exists (tr ++ [CallNewBackend (Registry_Backend cfg); Register []]).
    rewrite !count_if_app, Ha, Hs, Hx.
    split_and!; try done; [unfold count_if; simpl; lia|].
    intros d [Hin|Hin]%elem_of_app; [by apply Hd|].
    rewrite !elem_of_cons, elem_of_nil in Hin. by destruct Hin as [?|[?|[]]].
Qed.

End Properties.

(** *** unique and difference *)

Lemma unique_loop_spec (l : list string) :
  ∀ (keys : gmap string bool) (acc : list string),
    (∀ x, is_Some (keys !! x) ↔ x ∈ acc) → NoDup acc →
    (∀ x, x ∈ (foldl unique_step (keys, acc) l).2 ↔ x ∈ acc ∨ x ∈ l) ∧
    NoDup (foldl unique_step (keys, acc) l).2.
Proof.
  induction l as [|entry l IH]; intros keys acc Hkeys Hnd; simpl.
  - split; [|done]. intros x. rewrite elem_of_nil. tauto.
  - destruct (keys !! entry) as [b|] eqn:Hentry.
    + destruct (IH keys acc Hkeys Hnd) as [Hin Hnd']. split; [|done].
      intros x. rewrite Hin, elem_of_cons.
      assert (entry ∈ acc) by (apply Hkeys; eauto).
      split; [tauto|]. intros [?|[->|?]]; auto.
    + assert (entry ∉ acc) as Hfresh.
      { intros Hin. apply Hkeys in Hin as [b Hb]. congruence. }
      destruct (IH (<[entry:=true]> keys) (acc ++ [entry])) as [Hin Hnd'].
      * intros x. rewrite lookup_insert_is_Some, elem_of_app, list_elem_of_singleton,
          Hkeys.
        destruct (decide (entry = x)) as [->|]; intuition congruence.
      * apply NoDup_app. split_and!; [done| |apply NoDup_singleton].
        intros x Hx ->%list_elem_of_singleton. done.
      * split; [|done]. intros x.
        rewrite Hin, elem_of_app, list_elem_of_singleton, elem_of_cons. tauto.
Qed.

Lemma elem_of_unique (l : list string) x : x ∈ unique l ↔ x ∈ l.
Proof.
  unfold unique. destruct (unique_loop_spec l ∅ []) as [Hin _].
  - intros y. rewrite lookup_empty, elem_of_nil. split; [by intros []|done].
  - apply NoDup_nil_2.
  - rewrite Hin, elem_of_nil. tauto.
Qed.

Lemma NoDup_unique (l : list string) : NoDup (unique l).
Proof.
  unfold unique. destruct (unique_loop_spec l ∅ []) as [_ Hnd]; [|apply NoDup_nil_2|done].
  intros y. rewrite lookup_empty, elem_of_nil. split; [by intros []|done].
Qed.

Lemma difference_map_spec (b : list string) x :
  ∀ mb : gmap string unit,
    is_Some (foldl (λ mb x, <[x := tt]> mb) mb b !! x) ↔ is_Some (mb !! x) ∨ x ∈ b.
Proof.
  induction b as [|y b IH]; intros mb; simpl.
  - rewrite elem_of_nil. tauto.
  - rewrite IH, lookup_insert_is_Some, elem_of_cons.
    destruct (decide (y = x)) as [->|]; intuition congruence.
Qed.

Lemma elem_of_difference_list (a b : list string) x :
  x ∈ difference a b ↔ x ∈ a ∧ x ∉ b.
Proof.
  unfold difference.
  set (mb := foldl (λ mb x, <[x := tt]> mb) ∅ b).
  assert (∀ y, is_Some (mb !! y) ↔ y ∈ b) as Hmb.
  { intros y. unfold mb. rewrite difference_map_spec, lookup_empty.
    split; [by intros [[]|?]|auto]. }
  clearbody mb.
  assert (∀ acc,
    x ∈ foldl (λ diff x, match mb !! x with Some _ => diff | None => diff ++ [x] end)
          acc a ↔ x ∈ acc ∨ (x ∈ a ∧ x ∉ b)) as Hgen.
  { induction a as [|y a IH]; intros acc; simpl.
    - rewrite elem_of_nil. tauto.
    - rewrite IH, elem_of_cons. destruct (mb !! y) as [u|] eqn:Hy.
      + assert (y ∈ b) by (apply Hmb; eauto).
        intuition congruence.
      + assert (y ∉ b) by (rewrite <- Hmb, Hy; by intros []).
        rewrite elem_of_app, list_elem_of_singleton.
        intuition congruence. }
  rewrite Hgen, elem_of_nil. tauto.
Qed.


(** *** tableSchemes *)

Lemma targetSchemes_spec (targets : list Target) :
  ∀ schemes,
    (∀ target, target ∈ targets → is_Some (TURL target)) →
    ∃ found,
      targetSchemes schemes targets = Some (schemes ++ found) ∧
      ∀ s, s ∈ found ↔ ∃ target, target ∈ targets ∧ Scheme <$> TURL target = Some s.
Proof.
  induction targets as [|target targets IH]; intros schemes Hurl; simpl.
  - exists []. rewrite app_nil_r. split; [done|].
    intros s. rewrite elem_of_nil. split; [done|].
    intros (t & Ht & _). by apply not_elem_of_nil in Ht.
  - destruct (Hurl target) as [u Hu]; [by left|]. rewrite Hu.
    destruct (IH (schemes ++ [Scheme u])) as (found & -> & Hfound).
    { intros t Ht. apply Hurl. by right. }
    exists (Scheme u :: found). split; [by rewrite <- app_assoc|].
    intros s. rewrite elem_of_cons, Hfound. split.
    + intros [->|(t & Ht & Hs)].
      * exists target. split; [by left|by rewrite Hu].
      * exists t. split; [by right|done].
    + intros (t & [->|Ht]%elem_of_cons & Hs).
      * left. rewrite Hu in Hs. by simplify_eq/=.
      * right. by exists t.
Qed.

Lemma routesSchemes_spec (r : Routes) :
  ∀ schemes,
    haveURLs r →
    ∃ found,
      routesSchemes schemes r = Some (schemes ++ found) ∧
      ∀ s, s ∈ found ↔
           ∃ rt target, rt ∈ r ∧ target ∈ Targets rt ∧
                        Scheme <$> TURL target = Some s.
Proof.
  induction r as [|rt r IH]; intros schemes Hurl; simpl.
  - exists []. rewrite app_nil_r. split; [done|].
    intros s. rewrite elem_of_nil. split; [done|].
    intros (rt & t & Hrt & _). by apply not_elem_of_nil in Hrt.
  - destruct (targetSchemes_spec (Targets rt) schemes) as (f1 & -> & Hf1).
    { intros t Ht. apply (Hurl rt); [by left|done]. }
    destruct (IH (schemes ++ f1)) as (f2 & -> & Hf2).
    { intros rt' t Hrt' Ht. apply (Hurl rt'); [by right|done]. }
    exists (f1 ++ f2). split; [by rewrite <- app_assoc|].
    intros s. rewrite elem_of_app, Hf1, Hf2. split.
    + intros [(t & Ht & Hs)|(rt' & t & Hrt' & Ht & Hs)].
      * exists rt, t. split_and!; [by left|done|done].
      * exists rt', t. split_and!; [by right|done|done].
    + intros (rt' & t & [->|Hrt']%elem_of_cons & Ht & Hs).
      * left. by exists t.
      * right. by exists rt', t.
Qed.

Lemma singleton_of_NoDup (l : list string) a :
  NoDup l → a ∈ l → (∀ x, x ∈ l → x = a) → l = [a].
Proof.
  intros Hnd Ha Hall. destruct l as [|x l]; [by apply not_elem_of_nil in Ha|].
  assert (x = a) as -> by (apply Hall; by left).
  destruct l as [|y l]; [done|].
  assert (y = a) as -> by (apply Hall; right; by left).
  apply NoDup_cons in Hnd as [Hnot _]. exfalso. apply Hnot. by left.
Qed.

(** The test of the loop on the schemes of a host holds exactly when the
    host has a target and all its targets have the scheme [tcp]. *)
Lemma tableSchemes_only_tcp (rts : Routes) :
  haveURLs rts →
  ∃ schemes,
    tableSchemes rts = Some schemes ∧
    (bool_decide (length schemes = 1%nat)
       && bool_decide (schemes !! 0%nat = Some "tcp") = true
     ↔ allTargetsTcp rts).
Proof.
  intros Hurl. unfold tableSchemes.
  destruct (routesSchemes_spec rts [] Hurl) as (found & -> & Hfound).
  simpl. exists (unique found). split; [done|].
  rewrite andb_true_iff, !bool_decide_eq_true. split.
  - intros [Hlen Hhead].
    destruct (unique found) as [|x [|y l]] eqn:Huniq; simplify_eq/=.
    assert (∀ s, s ∈ found ↔ s = "tcp") as Honly.
    { intros s. rewrite <- elem_of_unique, Huniq. apply list_elem_of_singleton. }
    split.
    + pose proof (proj2 (Honly "tcp") eq_refl) as Hin.
      apply Hfound in Hin as (rt & t & Hrt & Ht & _). by exists rt, t.
    + intros rt t Hrt Ht. destruct (Hurl rt t Hrt Ht) as [u Hu].
      rewrite Hu. simpl. f_equal. apply Honly, Hfound.
      exists rt, t. by rewrite Hu.
  - intros [(rt & t & Hrt & Ht) Hall].
    assert (unique found = ["tcp"]) as ->; [|done].
    apply singleton_of_NoDup; [apply NoDup_unique| |].
    + apply elem_of_unique, Hfound. exists rt, t. split_and!; [done|done|by apply (Hall rt)].
    + intros s (rt' & t' & Hrt' & Ht' & Hs)%elem_of_unique%Hfound.
      rewrite (Hall rt' t' Hrt' Ht') in Hs. by simplify_eq.
Qed.

(** *** strings.Split *)

Lemma Split_from_cons sep s k cur :
  ∃ field fields, strings.Split_from sep s k cur = field :: fields.
Proof.
  revert k cur.
  induction s as [|c s IH]; intros k cur; cbn [strings.Split_from]; [by eexists _, _|].
  destruct k; [|apply IH].
  destruct (String.prefix sep (String c s)); [by eexists _, _|apply IH].
Qed.

Lemma Split_from_second s :
  ∀ cur, strings.Contains s ":" = true →
         is_Some (strings.Split_from ":" s O cur !! 1%nat).
Proof.
  induction s as [|c s IH]; intros cur; [done|].
  cbn [strings.Contains strings.Split_from].
  destruct (String.prefix ":" (String c s)) eqn:Hpre.
  - intros _. change (pred (String.length ":")) with O.
    destruct (Split_from_cons ":" s O EmptyString) as (field & fields & ->).
    by eexists.
  - simpl. apply IH.
Qed.

(** A string that contains a colon has a second field. *)
Lemma Split_second s :
  strings.Contains s ":" = true → is_Some (strings.Split s ":" !! 1%nat).
Proof. apply Split_from_second. Qed.

(** *** The tcp-dynamic loop *)

Lemma scan_step_spec ports host (rts : Routes) :
  haveURLs rts →
  ∃ ports',
    scan_step ports (host, rts) = Some ports' ∧ NoDup ports' ∧
    ∀ p, p ∈ ports' ↔ p ∈ ports ∨ (dynamicPort host = Some p ∧ allTargetsTcp rts).
Proof.
  intros Hurl. unfold scan_step, dynamicPort.
  destruct (strings.Contains host ":") eqn:Hcolon.
  - destruct (Split_second host Hcolon) as [field ->].
    destruct (tableSchemes_only_tcp rts Hurl) as (schemes & -> & Htest).
    cbn [mbind option_bind fmap option_fmap option_map].
    destruct (bool_decide (length schemes = 1%nat)
                && bool_decide (schemes !! 0%nat = Some "tcp")) eqn:Hb.
    + eexists. split; [done|]. split; [apply NoDup_unique|].
      intros p. rewrite elem_of_unique, elem_of_app, list_elem_of_singleton.
      assert (allTargetsTcp rts) by by apply Htest.
      unfold Buffer.String, Buffer.WriteString.
      change (EmptyString +:+ ":") with ":". intuition congruence.
    + eexists. split; [done|]. split; [apply NoDup_unique|].
      intros p. rewrite elem_of_unique.
      assert (¬ allTargetsTcp rts) by (rewrite <- Htest; congruence).
      tauto.
  - eexists. split; [done|]. split; [apply NoDup_unique|].
    intros p. rewrite elem_of_unique. intuition congruence.
Qed.

Lemma scan_spec (entries : list (string * Routes)) :
  ∀ ports,
    (∀ host rts, (host, rts) ∈ entries → haveURLs rts) →
    NoDup ports →
    ∃ ports',
      scan ports entries = Some ports' ∧ NoDup ports' ∧
      ∀ p, p ∈ ports' ↔
           p ∈ ports ∨
           ∃ host rts, (host, rts) ∈ entries ∧ dynamicPort host = Some p ∧
                       allTargetsTcp rts.
Proof.
  induction entries as [|[host rts] entries IH]; intros ports Hurl Hnd.
  - exists ports. split_and!; [done|done|]. intros p. split; [auto|].
    intros [?|(h & r & Hin & _)]; [done|]. by apply not_elem_of_nil in Hin.
  - cbn [scan].
    destruct (scan_step_spec ports host rts) as (ports1 & -> & Hnd1 & Hin1).
    { apply (Hurl host). by left. }
    destruct (IH ports1) as (ports2 & -> & Hnd2 & Hin2); [|done|].
    { intros h r Hin. apply (Hurl h). by right. }
    exists ports2. split_and!; [done|done|].
    intros p. rewrite Hin2, Hin1. split.
    + intros [[?|[? ?]]|(h & r & Hin & ? & ?)]; auto.
      * right. exists host, rts. split_and!; [by left|done|done].
      * right. exists h, r. split_and!; [by right|done|done].
    + intros [?|(h & r & [[= -> ->]|Hin]%elem_of_cons & ? & ?)]; auto.
      right. by exists h, r.
Qed.

Lemma elem_of_flat_map {A B} (f : A → list B) (l : list A) y :
  y ∈ flat_map f l ↔ ∃ x, x ∈ l ∧ y ∈ f x.
Proof.
  rewrite list_elem_of_In, in_flat_map. by setoid_rewrite list_elem_of_In.
Qed.

(** What a tick opens and closes, for the ports it has found. *)
Lemma tick_effects refresh lastPorts ports listen p :
  let es := [Sleep refresh]
              ++ flat_map close_effects (difference lastPorts ports)
              ++ flat_map (open_effects listen) ports in
  (GoListenAndServeTCP p ∈ es ↔ p ∈ ports ∧ listen p = true) ∧
  (CloseProxy p ∈ es ↔ p ∈ lastPorts ∧ p ∉ ports).
Proof.
  intros es. unfold es.
  rewrite !elem_of_app, !list_elem_of_singleton, !elem_of_flat_map.
  setoid_rewrite elem_of_difference_list. unfold close_effects, open_effects. split.
  - split.
    + intros [?|[(x & _ & Hx)|(x & Hin & Hx)]]; [done| |].
      * rewrite !elem_of_cons, elem_of_nil in Hx. by destruct Hx as [?|[?|[]]].
      * destruct (listen x) eqn:Hl; rewrite !elem_of_cons, elem_of_nil in Hx.
        -- destruct Hx as [?|[?|[]]]; by simplify_eq.
        -- by destruct Hx as [?|[]].
    + intros [Hin Hl]. right. right. exists p. split; [done|].
      rewrite Hl. right. by left.
  - split.
    + intros [?|[(x & Hin & Hx)|(x & Hin & Hx)]]; [done| |].
      * rewrite !elem_of_cons, elem_of_nil in Hx.
        destruct Hx as [?|[?|[]]]; by simplify_eq.
      * destruct (listen x); rewrite !elem_of_cons, elem_of_nil in Hx.
        -- by destruct Hx as [?|[?|[]]].
        -- by destruct Hx as [?|[]].
    + intros Hin. right. left. exists p. split; [done|]. right. by left.
Qed.

(** C6, as the code has it. On a refresh tick over a table all of whose
    targets have a URL, the loop collects one port for every host key of the
    table that contains a colon and whose routes have only targets of scheme
    [tcp]: the colon followed by the second colon-separated field of the
    key. It starts a dynamic TCP listener on each collected port on which
    [net.Listen] succeeds, and on no other port, and it closes exactly the
    ports that were collected at the tick before and are not collected now.
    The collected ports are distinct and do not depend on the order in which
    the table is ranged over. *)
Theorem tcp_dynamic_tick_follows_route_ports
    refresh (tbl : Table) entries lastPorts listen :
  entries ≡ₚ map_to_list tbl →
  (∀ host rts, tbl !! host = Some rts → haveURLs rts) →
  ∃ ports es,
    dynamic_tick refresh entries lastPorts listen = Some (ports, es) ∧
    NoDup ports ∧
    (∀ p, p ∈ ports ↔
          ∃ host rts, tbl !! host = Some rts ∧ dynamicPort host = Some p ∧
                      allTargetsTcp rts) ∧
    (∀ p, GoListenAndServeTCP p ∈ es ↔ p ∈ ports ∧ listen p = true) ∧
    (∀ p, CloseProxy p ∈ es ↔ p ∈ lastPorts ∧ p ∉ ports).
Proof.
  intros Hperm Hurl.
  assert (∀ host rts, (host, rts) ∈ entries ↔ tbl !! host = Some rts) as Hentries.
  { intros host rts. by rewrite Hperm, elem_of_map_to_list. }
  destruct (scan_spec entries []) as (ports & Hscan & Hnd & Hin).
  { intros host rts Hhost. by apply (Hurl host), Hentries. }
  { apply NoDup_nil_2. }
  unfold dynamic_tick. rewrite Hscan. cbn [mbind option_bind].
  eexists ports, _. split; [done|]. split; [done|]. split.
  - intros p. rewrite Hin, elem_of_nil. split.
    + intros [[]|(host & rts & Hhost & ? & ?)]. exists host, rts.
      by rewrite <- Hentries.
    + intros (host & rts & Hhost & ? & ?). right. exists host, rts.
      by rewrite Hentries.
  - split; intros p; apply tick_effects.
Qed.

(** C6, as the specification states it, fails: with the one route
    [route add db :1234 tcp://10.0.0.7:9000] and every port free, the
    backend port referenced by the tcp target is [:9000], but the tick
    starts its listener on [:1234], the port of the route's host key, and
    none on [:9000]. *)
Lemma tcp_dynamic_ignores_backend_port :
  ":9000" ∈ specBackendPorts (map_to_list Demo.dynTable) ∧
  ∃ es,
    dynamic_tick 5 (map_to_list Demo.dynTable) [] (λ _, true) = Some ([":1234"], es) ∧
    GoListenAndServeTCP ":1234" ∈ es ∧
    GoListenAndServeTCP ":9000" ∉ es.
Proof.
  split.
  - assert (specBackendPorts (map_to_list Demo.dynTable) = [":9000"]) as ->
      by by vm_compute.
    by left.
  - eexists. split; [by vm_compute|]. split.
    + do 2 right. by left.
    + rewrite !not_elem_of_cons. split_and!; try done. apply not_elem_of_nil.
Qed.

(** ** The properties on concrete runs *)

#[local] Existing Instance Demo.collaborators.

Lemma merger_one_publication_witness :
  Registry_Backend Demo.cfg ≠ "custom" ∧
  (publications
     (watchBackend Demo.cfg ∅
        ([FromSvc "route add db"; FromMan "x"; FromMan "x"] ++ [FromSvc "route add db"])).2
   ≤ distinctInputs
       (combinedInputs EmptyString EmptyString
          ([FromSvc "route add db"; FromMan "x"; FromMan "x"]
             ++ [FromSvc "route add db"])))%nat.
Proof.
  assert (Registry_Backend Demo.cfg ≠ "custom") as Hb by done.
  split; [exact Hb|].
  exact (proj2 (proj2 (proj2 (proj2
    (@merger_one_publication_per_distinct_input Demo.collaborators Demo.cfg ∅
       [FromSvc "route add db"; FromMan "x"; FromMan "x"]
       (FromSvc "route add db") Hb))))).
Defined.

Lemma merger_keeps_table_witness :
  Registry_Backend Demo.cfg ≠ "custom" ∧
  Demo.newTable ("route add db" +:+ nl +:+ "bogus") = inr "route: syntax error" ∧
  table
    (watchBackend_step Demo.cfg (watchBackend Demo.cfg ∅ [FromSvc "route add db"]).1
       (FromMan "bogus")).1
  = table (watchBackend Demo.cfg ∅ [FromSvc "route add db"]).1.
Proof.
  assert (Registry_Backend Demo.cfg ≠ "custom") as Hb by done.
  assert (Demo.newTable ("route add db" +:+ nl +:+ "bogus") = inr "route: syntax error")
    as Hfail by by vm_compute.
  split; [exact Hb|]. split; [exact Hfail|].
  exact (proj1 (proj2 (proj2
    (@merger_keeps_table_on_parse_failure Demo.collaborators Demo.cfg ∅
       [FromSvc "route add db"] (FromMan "bogus") [] "route: syntax error"
       Hb Hfail)))).
Defined.

Lemma merger_registers_aliases_witness :
  Registry_Backend Demo.cfg ≠ "custom" ∧
  "bogus" +:+ nl +:+ EmptyString ≠ EmptyString ∧
  ∃ pre post,
    (@watchBackend_step Demo.collaborators Demo.cfg (watchBackend_init Demo.dynTable)
       (FromSvc "bogus")).2 =
      pre ++ Register [] :: CallNewTable ("bogus" +:+ nl +:+ EmptyString) :: post.
Proof.
  assert (Registry_Backend Demo.cfg ≠ "custom") as Hb by done.
  assert ("bogus" +:+ nl +:+ EmptyString ≠ EmptyString) as Hdiff by done.
  split; [exact Hb|]. split; [exact Hdiff|].
  destruct (@merger_registers_aliases_before_table Demo.collaborators Demo.cfg
              (watchBackend_init Demo.dynTable) (FromSvc "bogus") Hb Hdiff)
    as (pre & post & Heq & _).
  exists pre, post. exact Heq.
Defined.

Lemma first_table_ready_witness :
  Registry_Backend Demo.cfg ≠ "custom" ∧
  CloseFirst ∈ (@watchBackend Demo.collaborators Demo.cfg ∅
                  [FromSvc "bogus"; FromSvc "route add db"; FromMan "x"]).2 ∧
  (count_if is_CloseFirst
     (@watchBackend Demo.collaborators Demo.cfg ∅
        [FromSvc "bogus"; FromSvc "route add db"; FromMan "x"]).2 ≤ 1)%nat.
Proof.
  assert (Registry_Backend Demo.cfg ≠ "custom") as Hb by done.
  split; [exact Hb|].
  pose proof (@first_table_ready_signalled_once Demo.collaborators Demo.cfg ∅
                [FromSvc "bogus"; FromSvc "route add db"; FromMan "x"])
    as (Hle & _ & Hiff & _).
  split; [|exact Hle].
  apply (Hiff Hb).
  exists ("route add db" +:+ nl +:+ EmptyString), Demo.dynTable.
  split; [right; by left|by vm_compute].
Defined.

Lemma custom_backend_witness :
  Registry_Backend Demo.customCfg = "custom" ∧
  ∃ rest,
    (@watchBackend Demo.collaborators Demo.customCfg ∅
       [FromSvc "unexpected EOF"; FromSvc "OK"]).2 =
      [Printf "[ERROR] error during update from custom back end - %s"
         [AStr "unexpected EOF"]]
      ++ CloseFirst :: rest.
Proof.
  split; [done|].
  destruct (@custom_backend_first_message_signals Demo.collaborators Demo.customCfg ∅
              "unexpected EOF" [FromSvc "OK"] eq_refl) as (rest & Heq & _).
  exists rest. exact Heq.
Defined.

Lemma initBackend_witness :
  knownBackend (Registry_Backend Demo.cfg) = true ∧
  Forall (retried (0 + Registry_Timeout Demo.cfg)) [mkAttempt (Some "refused") None 3 0] ∧
  (initBackend Demo.cfg 0
     ([mkAttempt (Some "refused") None 3 0] ++ [mkAttempt None (Some "denied") 11 0])).1
  = Exited 1.
Proof.
  assert (knownBackend (Registry_Backend Demo.cfg) = true) as Hk by done.
  assert (Forall (retried (0 + Registry_Timeout Demo.cfg))
            [mkAttempt (Some "refused") None 3 0]) as Hpre.
  { apply Forall_singleton. unfold retried. simpl. split_and!; [by eexists|lia|lia]. }
  split; [exact Hk|]. split; [exact Hpre|].
  destruct (initBackend_retries_until_deadline Demo.cfg 0
              [mkAttempt (Some "refused") None 3 0]
              (mkAttempt None (Some "denied") 11 0) [] Hk Hpre)
    as (tr & _ & _ & _ & _ & Hr).
  simpl in Hr. cbn [app]. by rewrite Hr.
Defined.

Lemma tcp_dynamic_tick_witness :
  map_to_list Demo.dynTable ≡ₚ map_to_list Demo.dynTable ∧
  (∀ host rts, Demo.dynTable !! host = Some rts → haveURLs rts) ∧
  ∃ ports es,
    dynamic_tick 5 (map_to_list Demo.dynTable) [":9000"] (λ _, true) = Some (ports, es) ∧
    (∀ p, CloseProxy p ∈ es ↔ p ∈ [":9000"] ∧ p ∉ ports).
Proof.
  assert (∀ host rts, Demo.dynTable !! host = Some rts → haveURLs rts) as Hurl.
  { unfold Demo.dynTable. intros host rts [_ <-]%lookup_singleton_Some rt target.
    intros ->%list_elem_of_singleton ->%list_elem_of_singleton. by eexists. }
  split; [reflexivity|]. split; [exact Hurl|].
  destruct (tcp_dynamic_tick_follows_route_ports 5 Demo.dynTable
              (map_to_list Demo.dynTable) [":9000"] (λ _, true)
              (reflexivity _) Hurl)
    as (ports & es & Htick & _ & _ & _ & Hclose).
  exists ports, es. split; [exact Htick|exact Hclose].
Defined.

(** ** Examples *)

Example Split_host_key : strings.Split "db.example.com:5432" ":" = ["db.example.com"; "5432"].
Proof. reflexivity. Qed.

Example dynamicPort_of_port_key : dynamicPort ":1234" = Some ":1234".
Proof. reflexivity. Qed.

Example dynamicPort_without_colon : dynamicPort "db.example.com" = None.
Proof. reflexivity. Qed.

Example unique_keeps_first_occurrences : unique ["b"; "a"; "b"; "a"] = ["b"; "a"].
Proof. by vm_compute. Qed.

Example difference_keeps_order : difference [":1"; ":2"; ":3"] [":2"] = [":1"; ":3"].
Proof. by vm_compute. Qed.

Example matcher_follows_proto_option :
  lookupHostMatcher Demo.cfg
    {[ "web.example.com" := [mkRoute "web.example.com" "/" [Demo.protoTarget]] ]}
    "web.example.com" = true.
Proof. by vm_compute. Qed.

Example matcher_rejects_http_target :
  lookupHostMatcher Demo.cfg
    {[ "web.example.com" := [mkRoute "web.example.com" "/" [Demo.httpTarget]] ]}
    "web.example.com" = false.
Proof. by vm_compute. Qed.

Example logRoutes_unknown_format :
  logRoutes ∅ "a" "b" "json" =
    [Printf "[WARN] Invalid route format %q. Defaulting to %q" [AStr "json"; AStr "delta"];
     Printf ("[INFO] Config updates" +:+ nl +:+ "%s") [AStr "- a+ b"]].
Proof. by vm_compute. Qed.

Example initBackend_exits_on_shutdown :
  initBackend Demo.cfg 0 [mkAttempt (Some "refused") None 3 1] =
    (Exited 1,
     [CallNewBackend "consul";
      Print [AStr "[WARN] Error initializing backend. "; AStr "refused"];
      Sleep 1; ExitExit 1]).
Proof. reflexivity. Qed.

(** * Further properties of main.go *)

(** ** unique and difference *)

Lemma unique_loop_keys (l : list string) :
  ∀ (keys : gmap string bool) (acc : list string),
    (∀ x, is_Some (keys !! x) ↔ x ∈ acc) →
    ∀ x, is_Some ((foldl unique_step (keys, acc) l).1 !! x)
         ↔ x ∈ (foldl unique_step (keys, acc) l).2.
Proof.
  induction l as [|entry l IH]; intros keys acc Hkeys; [done|].
  simpl. destruct (keys !! entry) as [b|] eqn:Hentry; [by apply IH|].
  apply IH. intros x.
  rewrite lookup_insert_is_Some, elem_of_app, list_elem_of_singleton, Hkeys.
  destruct (decide (entry = x)) as [->|]; intuition congruence.
Qed.

Lemma unique_app_one l x :
  unique (l ++ [x]) = if decide (x ∈ l) then unique l else unique l ++ [x].
Proof.
  unfold unique. rewrite foldl_app. simpl.
  pose proof (unique_loop_keys l ∅ []) as Hkeys.
  pose proof (elem_of_unique l x) as Hx. unfold unique in Hx.
  destruct (foldl unique_step (∅, []) l) as [keys list] eqn:Hfold.
  simpl in *.
  assert (is_Some (keys !! x) ↔ x ∈ list) as Hk.
  { apply Hkeys. intros y. rewrite lookup_empty, elem_of_nil.
    split; [by intros []|done]. }
  destruct (keys !! x) as [b|] eqn:Hlook.
  - rewrite decide_True; [done|]. apply Hx, Hk. by eexists.
  - rewrite decide_False; [done|]. rewrite <- Hx, <- Hk. by intros [].
Qed.

Lemma unique_NoDup_fix l : NoDup l → unique l = l.
Proof.
  induction l as [|x l IH] using rev_ind; intros Hnd; [done|].
  apply NoDup_app in Hnd as (Hl & Hx & _).
  rewrite unique_app_one, decide_False, IH; [done|done|].
  intros Hin. apply (Hx x Hin). by left.
Qed.

(** X1. [unique] returns a slice without repetitions that has exactly the
    entries of its argument, and applying it again changes nothing. *)
Theorem unique_distinct_same_entries (l : list string) :
  (∀ x, x ∈ unique l ↔ x ∈ l) ∧ NoDup (unique l) ∧ unique (unique l) = unique l.
Proof.
  split_and!.
  - intros x. apply elem_of_unique.
  - apply NoDup_unique.
  - apply unique_NoDup_fix, NoDup_unique.
Qed.

(** X2. [unique] returns a slice that has no repetition as it is. *)
Theorem unique_of_distinct (l : list string) : NoDup l → unique l = l.
Proof. apply unique_NoDup_fix. Qed.

Lemma unique_of_distinct_witness :
  NoDup [":443"; ":80"; ":9000"] ∧ unique [":443"; ":80"; ":9000"] = [":443"; ":80"; ":9000"].
Proof.
  assert (NoDup [":443"; ":80"; ":9000"]) as Hnd.
  { repeat (apply NoDup_cons; split; [by rewrite ?not_elem_of_cons, elem_of_nil; intuition discriminate|]).
    apply NoDup_nil_2. }
  split; [exact Hnd|]. exact (unique_of_distinct _ Hnd).
Defined.

(** X3. [unique] keeps the first occurrence of every entry, in the order of
    the argument: an entry appended to a slice is appended to the result
    unless it occurs in the slice already. *)
Theorem unique_keeps_first_occurrence (l : list string) (x : string) :
  unique [] = [] ∧
  unique (l ++ [x]) = (if decide (x ∈ l) then unique l else unique l ++ [x]).
Proof. split; [done|apply unique_app_one]. Qed.

Lemma difference_filter (a b : list string) :
  difference a b = filter (λ x, x ∉ b) a.
Proof.
  unfold difference.
  set (mb := foldl (λ mb x, <[x := tt]> mb) ∅ b).
  assert (∀ y, is_Some (mb !! y) ↔ y ∈ b) as Hmb.
  { intros y. unfold mb. rewrite difference_map_spec, lookup_empty.
    split; [by intros [[]|?]|auto]. }
  clearbody mb.
  assert (∀ acc,
    foldl (λ diff x, match mb !! x with Some _ => diff | None => diff ++ [x] end) acc a
    = acc ++ filter (λ x, x ∉ b) a) as Hgen.
  { induction a as [|y a IH]; intros acc; simpl; [by rewrite app_nil_r|].
    rewrite IH. destruct (mb !! y) as [u|] eqn:Hy.
    - rewrite filter_cons_False; [done|]. intros Hnot. apply Hnot, Hmb. by eexists.
    - rewrite filter_cons_True; [by rewrite <- app_assoc|].
      rewrite <- Hmb, Hy. by intros []. }
  apply (Hgen []).
Qed.

(** X4. [difference a b] is [a] without the elements that occur in [b]: the
    others stay in their order and as often as they occur in [a]. *)
Theorem difference_filters_first_argument (a b : list string) :
  difference a b = filter (λ x, x ∉ b) a.
Proof. apply difference_filter. Qed.

(** X5. [difference] on the edges: nothing is removed by an empty [b], and
    the result is empty exactly when every element of [a] occurs in [b], so
    for an empty [a] and for [b = a]. *)
Theorem difference_empty_cases (a b : list string) :
  difference a [] = a ∧
  difference [] b = [] ∧
  difference a a = [] ∧
  (difference a b = [] ↔ ∀ x, x ∈ a → x ∈ b).
Proof.
  assert (∀ b', difference a b' = [] ↔ ∀ x, x ∈ a → x ∈ b') as Hempty.
  { intros b'. rewrite difference_filter. split.
    - intros Hnil x Hx. destruct (decide (x ∈ b')) as [|Hnot]; [done|].
      assert (x ∈ filter (λ x, x ∉ b') a) as Hin by by apply list_elem_of_filter.
      rewrite Hnil in Hin. by apply not_elem_of_nil in Hin.
    - intros Hsub. induction a as [|y a IH]; [done|].
      rewrite filter_cons_False.
      + apply IH. intros x Hx. apply Hsub. by right.
      + intros Hnot. apply Hnot, Hsub. by left. }
  split_and!.
  - rewrite difference_filter. clear Hempty.
    induction a as [|y a IH]; [done|].
    rewrite filter_cons_True by apply not_elem_of_nil. by rewrite IH.
  - by rewrite difference_filter.
  - by apply Hempty.
  - apply Hempty.
Qed.

(** ** tableSchemes *)

Lemma targetSchemes_None (targets : list Target) :
  ∀ schemes,
    targetSchemes schemes targets = None ↔
    ∃ target, target ∈ targets ∧ TURL target = None.
Proof.
  induction targets as [|target targets IH]; intros schemes; simpl.
  - split; [done|]. intros (t & Ht & _). by apply not_elem_of_nil in Ht.
  - destruct (TURL target) as [u|] eqn:Hu.
    + rewrite IH. split.
      * intros (t & Ht & Hnone). exists t. split; [by right|done].
      * intros (t & [->|Ht]%elem_of_cons & Hnone); [congruence|by exists t].
    + split; [|done]. intros _. exists target. split; [by left|done].
Qed.

Lemma routesSchemes_None (r : Routes) :
  ∀ schemes,
    routesSchemes schemes r = None ↔
    ∃ rt target, rt ∈ r ∧ target ∈ Targets rt ∧ TURL target = None.
Proof.
  induction r as [|rt r IH]; intros schemes; simpl.
  - split; [done|]. intros (rt & t & Hrt & _). by apply not_elem_of_nil in Hrt.
  - destruct (targetSchemes schemes (Targets rt)) as [schemes'|] eqn:Hts.
    + rewrite IH. split.
      * intros (rt' & t & Hrt' & Ht & Hnone). exists rt', t.
        split_and!; [by right|done|done].
      * intros (rt' & t & [->|Hrt']%elem_of_cons & Ht & Hnone); [|by exists rt', t].
        assert (targetSchemes schemes (Targets rt) = None) as Hcontra
          by (apply targetSchemes_None; by exists t).
        congruence.
    + split; [|done]. intros _.
      apply targetSchemes_None in Hts as (t & Ht & Hnone).
      exists rt, t. split_and!; [by left|done|done].
Qed.

(** X6. [tableSchemes] fails (a nil dereference in Go) exactly when one of
    the targets of the routes has no URL. Otherwise it returns, without
    repetition, the schemes of the target URLs of the routes, and nothing
    else; for routes without targets that is the empty slice. *)
Theorem tableSchemes_fails_iff_target_without_url (rts : Routes) :
  (tableSchemes rts = None ↔
   ∃ rt target, rt ∈ rts ∧ target ∈ Targets rt ∧ TURL target = None)
  ∧ (∀ schemes,
       tableSchemes rts = Some schemes →
       NoDup schemes ∧
       ∀ s, s ∈ schemes ↔
            ∃ rt target, rt ∈ rts ∧ target ∈ Targets rt ∧
                         Scheme <$> TURL target = Some s).
Proof.
  split.
  - unfold tableSchemes. rewrite <- (routesSchemes_None rts []).
    destruct (routesSchemes [] rts); simpl; split; done.
  - intros schemes Hsome.
    assert (haveURLs rts) as Hurl.
    { intros rt target Hrt Ht. destruct (TURL target) as [u|] eqn:Hu; [by eexists|].
      assert (routesSchemes [] rts = None) as Hnone
        by (apply routesSchemes_None; by exists rt, target).
      unfold tableSchemes in Hsome. by rewrite Hnone in Hsome. }
    destruct (routesSchemes_spec rts [] Hurl) as (found & Hfound & Hin).
    unfold tableSchemes in Hsome. rewrite Hfound in Hsome. simpl in Hsome.
    simplify_eq. split; [apply NoDup_unique|].
    intros s. by rewrite elem_of_unique, Hin.
Qed.

Lemma tableSchemes_fails_witness :
  tableSchemes [mkRoute ":1234" EmptyString [Demo.tcpTarget; Demo.httpTarget]]
  = Some ["tcp"; "http"] ∧
  NoDup ["tcp"; "http"].
Proof.
  assert (tableSchemes [mkRoute ":1234" EmptyString [Demo.tcpTarget; Demo.httpTarget]]
          = Some ["tcp"; "http"]) as Hsome by by vm_compute.
  split; [exact Hsome|].
  exact (proj1 (proj2 (tableSchemes_fails_iff_target_without_url _) _ Hsome)).
Defined.

(** ** The tcp-dynamic loop *)

Lemma tableSchemes_Some_haveURLs (rts : Routes) schemes :
  tableSchemes rts = Some schemes → haveURLs rts.
Proof.
  intros Hsome rt target Hrt Ht.
  destruct (TURL target) as [u|] eqn:Hu; [by eexists|].
  assert (routesSchemes [] rts = None) as Hnone
    by (apply routesSchemes_None; by exists rt, target).
  unfold tableSchemes in Hsome. by rewrite Hnone in Hsome.
Qed.

Lemma scan_step_None ports host (rts : Routes) :
  scan_step ports (host, rts) = None ↔
  strings.Contains host ":" = true ∧ tableSchemes rts = None.
Proof.
  unfold scan_step. destruct (strings.Contains host ":") eqn:Hcolon.
  - destruct (Split_second host Hcolon) as [field ->].
    destruct (tableSchemes rts) as [schemes|]; simpl; split; try done.
    by intros [_ ?].
  - simpl. split; [done|by intros [? _]].
Qed.

Lemma scan_step_Some ports host (rts : Routes) ports' :
  scan_step ports (host, rts) = Some ports' →
  NoDup ports' ∧
  ∀ p, p ∈ ports' ↔ p ∈ ports ∨ (dynamicPort host = Some p ∧ allTargetsTcp rts).
Proof.
  intros Hstep. destruct (strings.Contains host ":") eqn:Hcolon.
  - destruct (tableSchemes rts) as [schemes|] eqn:Hschemes.
    + destruct (scan_step_spec ports host rts) as (ports'' & Heq & Hnd & Hin).
      { by eapply tableSchemes_Some_haveURLs. }
      by simplify_eq.
    + assert (scan_step ports (host, rts) = None) as Hnone
        by by apply scan_step_None.
      congruence.
  - unfold scan_step in Hstep. rewrite Hcolon in Hstep. simpl in Hstep.
    simplify_eq. split; [apply NoDup_unique|].
    intros p. rewrite elem_of_unique. unfold dynamicPort. rewrite Hcolon.
    intuition congruence.
Qed.

Lemma scan_None (entries : list (string * Routes)) :
  ∀ ports,
    scan ports entries = None ↔
    ∃ host rts, (host, rts) ∈ entries ∧ strings.Contains host ":" = true ∧
                tableSchemes rts = None.
Proof.
  induction entries as [|[host rts] entries IH]; intros ports; cbn [scan].
  - split; [done|]. intros (h & r & Hin & _). by apply not_elem_of_nil in Hin.
  - destruct (scan_step ports (host, rts)) as [ports'|] eqn:Hstep.
    + rewrite IH. split.
      * intros (h & r & Hin & ? & ?). exists h, r. split_and!; [by right|done|done].
      * intros (h & r & [[= -> ->]|Hin]%elem_of_cons & Hc & Hn); [|by exists h, r].
        assert (scan_step ports (host, rts) = None) by by apply scan_step_None.
        congruence.
    + split; [|done]. intros _. apply scan_step_None in Hstep as [? ?].
      exists host, rts. split_and!; [by left|done|done].
Qed.

Lemma scan_Some (entries : list (string * Routes)) :
  ∀ ports ports',
    scan ports entries = Some ports' → NoDup ports →
    NoDup ports' ∧
    ∀ p, p ∈ ports' ↔
         p ∈ ports ∨
         ∃ host rts, (host, rts) ∈ entries ∧ dynamicPort host = Some p ∧
                     allTargetsTcp rts.
Proof.
  induction entries as [|[host rts] entries IH]; intros ports ports' Hscan Hnd;
    cbn [scan] in Hscan.
  - simplify_eq. split; [done|]. intros p. split; [auto|].
    intros [?|(h & r & Hin & _)]; [done|]. by apply not_elem_of_nil in Hin.
  - destruct (scan_step ports (host, rts)) as [ports1|] eqn:Hstep; [|done].
    apply scan_step_Some in Hstep as [Hnd1 Hin1].
    destruct (IH ports1 ports' Hscan Hnd1) as [Hnd' Hin']. split; [done|].
    intros p. rewrite Hin', Hin1. split.
    + intros [[?|[? ?]]|(h & r & Hin & ? & ?)]; auto.
      * right. exists host, rts. split_and!; [by left|done|done].
      * right. exists h, r. split_and!; [by right|done|done].
    + intros [?|(h & r & [[= -> ->]|Hin]%elem_of_cons & ? & ?)]; auto.
      right. by exists h, r.
Qed.

(** X7. A tick of the tcp-dynamic loop fails (the nil dereference of
    [tableSchemes]) exactly when the table has a host key with a colon one
    of whose targets has no URL, whatever the order in which the table is
    ranged over. The targets of host keys without colon are never looked at. *)
Theorem tcp_dynamic_tick_fails_iff
    refresh (entries : list (string * Routes)) lastPorts listen :
  dynamic_tick refresh entries lastPorts listen = None ↔
  ∃ host rts rt target,
    (host, rts) ∈ entries ∧ strings.Contains host ":" = true ∧
    rt ∈ rts ∧ target ∈ Targets rt ∧ TURL target = None.
Proof.
  unfold dynamic_tick.
  assert (scan [] entries = None ↔
          ∃ host rts rt target,
            (host, rts) ∈ entries ∧ strings.Contains host ":" = true ∧
            rt ∈ rts ∧ target ∈ Targets rt ∧ TURL target = None) as Hscan.
  { rewrite scan_None. split.
    - intros (host & rts & Hin & Hc & Hn). unfold tableSchemes in Hn.
      destruct (routesSchemes [] rts) eqn:Hr; [done|].
      apply routesSchemes_None in Hr as (rt & t & ? & ? & ?).
      by exists host, rts, rt, t.
    - intros (host & rts & rt & t & Hin & Hc & Hrt & Ht & Hnone).
      exists host, rts. split_and!; [done|done|].
      unfold tableSchemes.
      assert (routesSchemes [] rts = None) as ->
        by (apply routesSchemes_None; by exists rt, t).
      done. }
  rewrite <- Hscan. destruct (scan [] entries); simpl; split; done.
Qed.

(** X8. The ports a tick collects do not depend on the order in which Go
    ranges over the table, up to their own order; and a tick that follows a
    tick over the same table closes no listener. *)
Theorem tcp_dynamic_tick_stable
    refresh (entries entries' : list (string * Routes)) lastPorts listen listen'
    ports es :
  entries ≡ₚ entries' →
  dynamic_tick refresh entries lastPorts listen = Some (ports, es) →
  ∃ ports' es',
    dynamic_tick refresh entries' ports listen' = Some (ports', es') ∧
    ports' ≡ₚ ports ∧
    ∀ p, CloseProxy p ∉ es'.
Proof.
  intros Hperm Htick. unfold dynamic_tick in *.
  destruct (scan [] entries) as [ps|] eqn:Hscan; [|done]. simpl in Htick.
  simplify_eq.
  destruct (scan [] entries') as [ps'|] eqn:Hscan'.
  - destruct (scan_Some entries [] ports Hscan) as [Hnd Hin]; [apply NoDup_nil_2|].
    destruct (scan_Some entries' [] ps' Hscan') as [Hnd' Hin']; [apply NoDup_nil_2|].
    assert (∀ p, p ∈ ps' ↔ p ∈ ports) as Hsame.
    { intros p. rewrite Hin, Hin'. by setoid_rewrite Hperm. }
    eexists ps', _. split; [done|]. split; [by apply NoDup_Permutation|].
    intros p Hclose. apply tick_effects in Hclose as [Hp Hnot].
    by apply Hnot, Hsame.
  - apply scan_None in Hscan' as (host & rts & Hin & Hc & Hn).
    assert (scan [] entries = None) as Hcontra.
    { apply scan_None. exists host, rts. by rewrite Hperm. }
    congruence.
Qed.

Lemma tcp_dynamic_tick_stable_witness :
  map_to_list Demo.dynTable ≡ₚ map_to_list Demo.dynTable ∧
  dynamic_tick 5 (map_to_list Demo.dynTable) [] (λ _, true)
    = Some ([":1234"],
            [Sleep 5;
             Printf "[INFO] Starting dynamic TCP listener on port %s " [AStr ":1234"];
             GoListenAndServeTCP ":1234"]) ∧
  ∃ ports' es',
    dynamic_tick 5 (map_to_list Demo.dynTable) [":1234"] (λ _, false)
      = Some (ports', es') ∧
    ports' ≡ₚ [":1234"].
Proof.
  assert (dynamic_tick 5 (map_to_list Demo.dynTable) [] (λ _, true)
          = Some ([":1234"],
                  [Sleep 5;
                   Printf "[INFO] Starting dynamic TCP listener on port %s "
                     [AStr ":1234"];
                   GoListenAndServeTCP ":1234"])) as Htick by by vm_compute.
  split; [reflexivity|]. split; [exact Htick|].
  destruct (tcp_dynamic_tick_stable 5 _ _ [] (λ _, true) (λ _, false) _ _
              (reflexivity (map_to_list Demo.dynTable)) Htick)
    as (ports' & es' & Heq & Hperm & _).
  exists ports', es'. split; [exact Heq|exact Hperm].
Defined.

(** ** The port of a host key *)

Lemma append_cons c (s t : string) : String c s +:+ t = String c (s +:+ t).
Proof. done. Qed.

Lemma append_snoc_cons (cur : string) c (h : string) :
  (cur +:+ String c EmptyString) +:+ h = cur +:+ String c h.
Proof.
  induction cur as [|d cur IH]; [done|]. by rewrite !append_cons, IH.
Qed.

Lemma append_empty_r (s : string) : s +:+ EmptyString = s.
Proof. induction s as [|c s IH]; [done|]. by rewrite append_cons, IH. Qed.

Lemma Contains_cons c s :
  strings.Contains (String c s) ":" =
    String.prefix ":" (String c s) || strings.Contains s ":".
Proof. done. Qed.

Lemma prefix_colon_tail c (s s' : string) :
  String.prefix ":" (String c s) = String.prefix ":" (String c s').
Proof.
  cbn [String.prefix]. destruct (ascii_dec ":" c); [by destruct s, s'|done].
Qed.

Lemma Split_from_no_colon h :
  strings.Contains h ":" = false →
  ∀ cur, strings.Split_from ":" h O cur = [cur +:+ h].
Proof.
  induction h as [|c h IH]; intros Hno cur.
  - by rewrite append_empty_r.
  - rewrite Contains_cons in Hno. apply orb_false_iff in Hno as [Hpre Hno].
    cbn [strings.Split_from]. rewrite Hpre, IH by done.
    by rewrite append_snoc_cons.
Qed.

Lemma Split_from_colon h r :
  strings.Contains h ":" = false →
  ∀ cur, strings.Split_from ":" (h +:+ ":" +:+ r) O cur
         = (cur +:+ h) :: strings.Split_from ":" r O EmptyString.
Proof.
  induction h as [|c h IH]; intros Hno cur.
  - change (EmptyString +:+ ":" +:+ r) with (String ":" r).
    cbn [strings.Split_from].
    assert (String.prefix ":" (String ":" r) = true) as -> by by destruct r.
    by rewrite append_empty_r.
  - rewrite Contains_cons in Hno. apply orb_false_iff in Hno as [Hpre Hno].
    rewrite append_cons. cbn [strings.Split_from].
    assert (String.prefix ":" (String c (h +:+ ":" +:+ r)) = false) as ->.
    { rewrite (prefix_colon_tail c _ h). exact Hpre. }
    rewrite IH by done. by rewrite append_snoc_cons.
Qed.

Lemma Contains_colon h r : strings.Contains (h +:+ ":" +:+ r) ":" = true.
Proof.
  induction h as [|c h IH].
  - change (EmptyString +:+ ":" +:+ r) with (String ":" r).
    rewrite Contains_cons. by destruct r.
  - rewrite append_cons, Contains_cons, IH. apply orb_true_r.
Qed.

(** X9. The port the tcp-dynamic loop derives from a host key: none for a
    key without colon; for a key [host:port] the colon and the port; and for
    a key with more colons the second field only, so that what follows a
    second colon is dropped. *)
Theorem dynamicPort_is_second_field (h p rest : string) :
  strings.Contains h ":" = false →
  strings.Contains p ":" = false →
  dynamicPort h = None ∧
  dynamicPort (h +:+ ":" +:+ p) = Some (":" +:+ p) ∧
  dynamicPort (h +:+ ":" +:+ p +:+ ":" +:+ rest) = Some (":" +:+ p).
Proof.
  intros Hh Hp. unfold dynamicPort, strings.Split. split_and!.
  - by rewrite Hh.
  - rewrite Contains_colon, Split_from_colon, Split_from_no_colon by done. done.
  - rewrite Contains_colon, Split_from_colon, Split_from_colon by done. done.
Qed.

Lemma dynamicPort_witness :
  strings.Contains "db.example.com" ":" = false ∧
  strings.Contains "5432" ":" = false ∧
  dynamicPort ("db.example.com" +:+ ":" +:+ "5432" +:+ ":" +:+ "x") = Some (":" +:+ "5432").
Proof.
  assert (strings.Contains "db.example.com" ":" = false) as Hh by reflexivity.
  assert (strings.Contains "5432" ":" = false) as Hp by reflexivity.
  split; [exact Hh|]. split; [exact Hp|].
  exact (proj2 (proj2 (dynamicPort_is_second_field _ _ "x" Hh Hp))).
Defined.

(** ** The merger over whole runs *)

Section MergerRuns.
Context `{Collaborators}.

Lemma lastPublished_app (e1 e2 : list Effect) :
  lastPublished (e1 ++ e2) =
    match lastPublished e2 with
    | Some t => Some t
    | None => lastPublished e1
    end.
Proof.
  unfold lastPublished. rewrite foldl_app. generalize (foldl
    (λ cur e, match e with SetTable t => Some t | _ => cur end) None e1) as cur.
  induction e2 as [|e e2 IH] using rev_ind; intros cur; [done|].
  rewrite !foldl_app. simpl. destruct e; try apply IH; done.
Qed.

Lemma lastPublished_none (es : list Effect) :
  count_if is_SetTable es = O → lastPublished es = None.
Proof.
  induction es as [|e es IH] using rev_ind; [done|].
  rewrite count_if_app, lastPublished_app. intros Hc.
  unfold count_if in Hc at 2. destruct e; simpl in *; try (apply IH; lia). lia.
Qed.

Lemma step_snoc cfg st ms m :
  watchBackend_loop cfg st (ms ++ [m]) =
    (let '(st1, e1) := watchBackend_loop cfg st ms in
     let '(st2, e2) := watchBackend_step cfg st1 m in
     (st2, e1 ++ e2)).
Proof.
  revert st. induction ms as [|m' ms IH]; intros st; simpl.
  - destruct (watchBackend_step cfg st m). by rewrite app_nil_r.
  - destruct (watchBackend_step cfg st m') as [st1 e1]. rewrite IH.
    destruct (watchBackend_loop cfg st1 ms) as [st2 e2].
    destruct (watchBackend_step cfg st2 m) as [st3 e3]. by rewrite app_assoc.
Qed.

(** X10. At any point of a run of the default case the current table is
    the one of the last publication, it is the table built from the last
    applied text, and [first] is closed; before the first publication the
    table is the one the run started with, no text is applied and [first]
    is open. *)
Theorem merger_table_is_table_of_last_applied_text cfg t0 ms :
  Registry_Backend cfg ≠ "custom" →
  let st := (watchBackend cfg t0 ms).1 in
  match lastPublished (watchBackend cfg t0 ms).2 with
  | Some t => table st = t ∧ NewTable (lastTable st) = inl t ∧ once st = true
  | None => table st = t0 ∧ lastTable st = EmptyString ∧ once st = false
  end.
Proof.
  intros Hb. unfold watchBackend.
  induction ms as [|m ms IH] using rev_ind; [done|].
  rewrite step_snoc.
  destruct (watchBackend_loop cfg (watchBackend_init t0) ms) as [st1 e1].
  rewrite watchBackend_step_default by done.
  destruct (receive_fields st1 m) as (Hl & Ho & Ht).
  pose proof (mergeStep_publications cfg st1 m) as Hpub.
  destruct (mergeStep_cases cfg st1 m)
    as [[Heq Hr]|[(Hne & e & Hnew & Hr)|(Hne & t & Hnew & Hr)]];
    rewrite Hr in *; cbn [fst snd] in *; rewrite lastPublished_app.
  - simpl. rewrite Hl, Ho, Ht. exact IH.
  - destruct Hpub as [Hp|[Hp _]].
    + rewrite (lastPublished_none _ Hp), Hl, Ho, Ht. exact IH.
    + exfalso. revert Hp. unfold publications.
      rewrite count_if_app, count_if_warn by done. done.
  - assert (lastPublished
              (match (ParseAliases (combine (receive st1 m))).2 with
               | Some e => [Printf "[WARN]: %s" [AStr e]]
               | None => []
               end ++
               [Register (ParseAliases (combine (receive st1 m))).1;
                CallNewTable (combine (receive st1 m)); SetTable t] ++
               logRoutes t (lastTable st1) (combine (receive st1 m))
                 (Log_RoutesFormat cfg) ++
               (if once st1 then [] else [CloseFirst])) = Some t) as ->; [|done].
    rewrite lastPublished_app.
    rewrite (lastPublished_app [_; _; _]).
    rewrite (lastPublished_none (_ ++ _)); [done|].
    rewrite count_if_app, count_if_logRoutes by done. by destruct (once st1).
Qed.

(** X11. In a run of the default case [first] is closed if and only if the
    combined text of some message of the run parses: listener start-up waits
    as long as every combined input fails. *)
Theorem first_table_ready_iff_some_input_parses cfg t0 ms :
  Registry_Backend cfg ≠ "custom" →
  (CloseFirst ∈ (watchBackend cfg t0 ms).2 ↔
   ∃ c t, c ∈ combinedInputs EmptyString EmptyString ms ∧ NewTable c = inl t).
Proof. intros Hb. by apply (loop_signal_iff cfg ms Hb (watchBackend_init t0)). Qed.

Lemma receive_twice st m : receive (receive st m) m = receive st m.
Proof. by destruct m. Qed.

(** X12. A combined text that fails to parse is not remembered: when the
    message is delivered again the iteration does the same again, it
    registers the aliases and logs the warning once more. A combined text
    that was published is remembered: the same message again does nothing. *)
Theorem merger_remembers_published_text_only cfg st m :
  Registry_Backend cfg ≠ "custom" →
  let next := svccfg (receive st m) +:+ nl +:+ mancfg (receive st m) in
  let r := watchBackend_step cfg st m in
  next ≠ lastTable st →
  (∀ e, NewTable next = inr e →
        watchBackend_step cfg r.1 m = r ∧
        Register (ParseAliases next).1 ∈ r.2 ∧
        Printf "[WARN] %s" [AStr e] ∈ r.2)
  ∧ (∀ t, NewTable next = inl t → watchBackend_step cfg r.1 m = (r.1, [])).
Proof.
  intros Hb next r Hdiff.
  assert (combine (receive st m) = next) as Hnext by apply combine_eq.
  destruct (receive_fields st m) as (Hl & Ho & Ht).
  unfold r. rewrite !watchBackend_step_default by done.
  destruct (mergeStep_cases cfg st m)
    as [[Heq Hr]|[(Hne & e' & Hnew & Hr)|(Hne & t' & Hnew & Hr)]];
    rewrite Hr; rewrite Hnext in *; cbn [fst snd]; [done| |].
  - split; [|intros t Ht'; congruence].
    intros e He. assert (e' = e) as -> by congruence. split_and!.
    + rewrite <- Hr. unfold mergeStep. by rewrite receive_twice.
    + apply elem_of_app. right. by left.
    + apply elem_of_app. right. do 2 right. by left.
  - split; [intros e He; congruence|]. intros t Ht'.
    destruct (mergeStep_cases cfg
                (mkMerger (svccfg (receive st m)) (mancfg (receive st m)) next true t') m)
      as [[Heq ->]|[(Hne' & _)|(Hne' & _)]].
    + f_equal. by destruct m.
    + exfalso. apply Hne'. rewrite combine_receive, <- Hnext, combine_receive.
      by destruct m.
    + exfalso. apply Hne'. rewrite combine_receive, <- Hnext, combine_receive.
      by destruct m.
Qed.

Lemma customLoop_fields cfg ms :
  Registry_Backend cfg = "custom" →
  ∀ st,
    let r := watchBackend_loop cfg st ms in
    table r.1 = table st ∧ lastTable r.1 = lastTable st ∧
    svccfg r.1 = svccfg st ∧ mancfg r.1 = mancfg st ∧
    ∀ e, e ∈ r.2 →
         e = CloseFirst ∨
         ∃ text, text ≠ "OK" ∧
                 e = Printf "[ERROR] error during update from custom back end - %s"
                       [AStr text].
Proof.
  intros Hb. induction ms as [|m ms IH]; intros st.
  - simpl. split_and!; try done. by intros e ?%not_elem_of_nil.
  - cbn [watchBackend_loop]. unfold watchBackend_step. rewrite decide_True by done.
    destruct m as [text|text].
    + rewrite customStep_first. specialize (IH
        (mkMerger (svccfg st) (mancfg st) (lastTable st) true (table st))).
      destruct (watchBackend_loop cfg _ ms) as [st2 e2]. cbn [fst snd] in *.
      destruct IH as (? & ? & ? & ? & He2). split_and!; try done.
      intros e. rewrite !elem_of_app. intros [[Hin|Hin]|Hin]; [| |by apply He2].
      * case_decide as Hok; [|by apply not_elem_of_nil in Hin].
        apply list_elem_of_singleton in Hin. right. by exists text.
      * destruct (once st); [by apply not_elem_of_nil in Hin|].
        apply list_elem_of_singleton in Hin. by left.
    + simpl. specialize (IH st).
      destruct (watchBackend_loop cfg st ms) as [st2 e2]. exact IH.
Qed.

(** X13. With the custom backend [watchBackend] never touches the routing
    table: whatever it receives, it does not register aliases, build or
    publish a table; all it does is to log the messages other than [OK] as
    errors and to close [first]. *)
Theorem custom_backend_never_builds_a_table cfg t0 ms :
  Registry_Backend cfg = "custom" →
  let r := watchBackend cfg t0 ms in
  table r.1 = t0 ∧ lastTable r.1 = EmptyString ∧
  ∀ e, e ∈ r.2 →
       e = CloseFirst ∨
       ∃ text, text ≠ "OK" ∧
               e = Printf "[ERROR] error during update from custom back end - %s"
                     [AStr text].
Proof.
  intros Hb. destruct (customLoop_fields cfg ms Hb (watchBackend_init t0))
    as (? & ? & _ & _ & ?). by split_and!.
Qed.

Lemma mergeStep_accounts cfg st m :
  let es := (mergeStep cfg st m).2 in
  count_if is_Register es = count_if is_CallNewTable es ∧
  (publications es ≤ count_if is_CallNewTable es)%nat ∧
  count_if is_exit es = O.
Proof.
  unfold publications.
  destruct (mergeStep_cases cfg st m)
    as [[Heq ->]|[(Hne & e & Hnew & ->)|(Hne & t & Hnew & ->)]]; cbn [fst snd].
  - done.
  - rewrite !count_if_app, !count_if_warn by done. unfold count_if. simpl.
    split_and!; [done|lia|done].
  - rewrite !count_if_app, !count_if_warn, !count_if_logRoutes by done.
    destruct (once st); unfold count_if; simpl; split_and!; try done; lia.
Qed.

(** X14. In any run, with any backend, [watchBackend] never ends the
    process, registers aliases exactly as often as it builds a table, and
    publishes no table it has not just built. *)
Theorem merger_accounts cfg t0 ms :
  let tr := (watchBackend cfg t0 ms).2 in
  count_if is_exit tr = O ∧
  count_if is_Register tr = count_if is_CallNewTable tr ∧
  (publications tr ≤ count_if is_CallNewTable tr)%nat.
Proof.
  unfold watchBackend. generalize (watchBackend_init t0) as st.
  induction ms as [|m ms IH]; intros st; [by split_and!|].
  cbn [watchBackend_loop].
  assert (let es := (watchBackend_step cfg st m).2 in
          count_if is_Register es = count_if is_CallNewTable es ∧
          (publications es ≤ count_if is_CallNewTable es)%nat ∧
          count_if is_exit es = O) as Hstep.
  { unfold watchBackend_step. case_decide as Hb; [|apply mergeStep_accounts].
    destruct m as [text|text]; [|done]. rewrite customStep_first. cbn [snd].
    unfold publications. rewrite !count_if_app.
    destruct (once st); case_decide; by split_and!. }
  destruct (watchBackend_step cfg st m) as [st1 e1].
  specialize (IH st1). destruct (watchBackend_loop cfg st1 ms) as [st2 e2].
  cbn [fst snd] in *. unfold publications in *. rewrite !count_if_app.
  destruct Hstep as (? & ? & ?), IH as (? & ? & ?). split_and!; lia.
Qed.

End MergerRuns.

Lemma merger_table_witness :
  Registry_Backend Demo.cfg ≠ "custom" ∧
  table (@watchBackend Demo.collaborators Demo.cfg ∅
           [FromSvc "route add db"; FromMan "bogus"]).1 = Demo.dynTable.
Proof.
  assert (Registry_Backend Demo.cfg ≠ "custom") as Hb by done.
  split; [exact Hb|].
  pose proof (@merger_table_is_table_of_last_applied_text Demo.collaborators Demo.cfg ∅
                [FromSvc "route add db"; FromMan "bogus"] Hb) as Hinv.
  assert (lastPublished
            (@watchBackend Demo.collaborators Demo.cfg ∅
               [FromSvc "route add db"; FromMan "bogus"]).2 = Some Demo.dynTable)
    as Hlast by by vm_compute.
  cbn zeta in Hinv. rewrite Hlast in Hinv. exact (proj1 Hinv).
Defined.

Lemma first_table_ready_iff_witness :
  Registry_Backend Demo.cfg ≠ "custom" ∧
  CloseFirst ∈ (@watchBackend Demo.collaborators Demo.cfg ∅
                  [FromSvc "bogus"; FromSvc "route add db"]).2.
Proof.
  assert (Registry_Backend Demo.cfg ≠ "custom") as Hb by done.
  split; [exact Hb|].
  apply (@first_table_ready_iff_some_input_parses Demo.collaborators Demo.cfg ∅
           [FromSvc "bogus"; FromSvc "route add db"] Hb).
  exists ("route add db" +:+ nl +:+ EmptyString), Demo.dynTable.
  split; [right; by left|by vm_compute].
Defined.

Lemma merger_remembers_witness :
  Registry_Backend Demo.cfg ≠ "custom" ∧
  "bogus" +:+ nl +:+ EmptyString ≠ EmptyString ∧
  @NewTable Demo.collaborators ("bogus" +:+ nl +:+ EmptyString)
    = inr "route: syntax error" ∧
  @watchBackend_step Demo.collaborators Demo.cfg
    (@watchBackend_step Demo.collaborators Demo.cfg (watchBackend_init ∅)
       (FromSvc "bogus")).1 (FromSvc "bogus")
  = @watchBackend_step Demo.collaborators Demo.cfg (watchBackend_init ∅) (FromSvc "bogus").
Proof.
  assert (Registry_Backend Demo.cfg ≠ "custom") as Hb by done.
  assert ("bogus" +:+ nl +:+ EmptyString ≠ EmptyString) as Hdiff by done.
  assert (@NewTable Demo.collaborators ("bogus" +:+ nl +:+ EmptyString)
          = inr "route: syntax error") as Hfail by by vm_compute.
  split; [exact Hb|]. split; [exact Hdiff|]. split; [exact Hfail|].
  exact (proj1 (proj1 (@merger_remembers_published_text_only Demo.collaborators
                         Demo.cfg (watchBackend_init ∅) (FromSvc "bogus") Hb Hdiff)
                  _ Hfail)).
Defined.

Lemma custom_backend_never_builds_witness :
  Registry_Backend Demo.customCfg = "custom" ∧
  table (@watchBackend Demo.collaborators Demo.customCfg Demo.dynTable
           [FromSvc "route add db"; FromSvc "OK"]).1 = Demo.dynTable.
Proof.
  split; [done|].
  exact (proj1 (@custom_backend_never_builds_a_table Demo.collaborators Demo.customCfg
                  Demo.dynTable [FromSvc "route add db"; FromSvc "OK"] eq_refl)).
Defined.

(** ** initBackend over any sequence of attempts *)

Lemma retried_dec deadline a : Decision (retried deadline a).
Proof. unfold retried. apply _. Defined.

Lemma initBackend_loop_outcome cfg deadline attempts :
  knownBackend (Registry_Backend cfg) = true →
  ((initBackend_loop cfg deadline attempts).1 = Pending ↔
   Forall (retried deadline) attempts) ∧
  ((initBackend_loop cfg deadline attempts).1 = Returned ↔
   ∃ pre a rest, attempts = pre ++ a :: rest ∧
                 Forall (retried deadline) pre ∧ failure a = None).
Proof.
  intros Hk. induction attempts as [|a attempts [IHp IHr]].
  - cbn [initBackend_loop]. rewrite Hk. cbn [negb fst].
    split; [done|]. split; [done|]. intros (pre & a & rest & Heq & _).
    by destruct pre.
  - destruct (failure a) as [e|] eqn:Hf.
    + destruct (initBackend_loop_failed cfg deadline a attempts e Hk Hf)
        as (calls & _ & _ & _ & ->). cbn zeta.
      destruct (Z.gtb_spec (now a) deadline) as [Hlate|Hlate];
        [|destruct (Z.gtb_spec (shuttingDown a) 0) as [Hdown|Hdown]]; cbn [fst].
      * split; [split; [done|]|split; [done|]].
        -- intros [(_ & ? & _) _]%Forall_cons. lia.
        -- intros ([|a' pre] & a'' & rest & Heq & Hpre & Hnone); simpl in Heq; simplify_eq.
           apply Forall_cons in Hpre as [(_ & ? & _) _]. lia.
      * split; [split; [done|]|split; [done|]].
        -- intros [(_ & _ & ?) _]%Forall_cons. lia.
        -- intros ([|a' pre] & a'' & rest & Heq & Hpre & Hnone); simpl in Heq; simplify_eq.
           apply Forall_cons in Hpre as [(_ & _ & ?) _]. lia.
      * assert (retried deadline a) as Hra by (split_and!; [by eexists|lia|lia]).
        rewrite IHp, IHr, Forall_cons. split; [tauto|]. split.
        -- intros (pre & a' & rest & -> & Hpre & Hnone).
           exists (a :: pre), a', rest. split_and!; [done|by apply Forall_cons|done].
        -- intros ([|a' pre] & a'' & rest & Heq & Hpre & Hnone); simpl in Heq; simplify_eq.
           apply Forall_cons in Hpre as [_ Hpre]. by exists pre, a'', rest.
    + rewrite (initBackend_loop_succeeded cfg deadline a attempts Hk Hf). cbn [fst].
      split; [split; [done|]|split; [|done]].
      * intros [([e He] & _) _]%Forall_cons. congruence.
      * intros _. exists [], a, attempts. by split_and!.
Qed.

(** X15. With a known backend [initBackend] is still looping after a
    sequence of attempts exactly when each of them failed before the
    deadline with the shutdown flag unset; and it returns exactly when the
    first attempt that is not of that kind succeeds, be it after the
    deadline or with the shutdown flag set: the deadline and the flag are
    only consulted after a failure. *)
Theorem initBackend_outcome cfg start attempts :
  knownBackend (Registry_Backend cfg) = true →
  let deadline := start + Registry_Timeout cfg in
  ((initBackend cfg start attempts).1 = Pending ↔
   Forall (retried deadline) attempts) ∧
  ((initBackend cfg start attempts).1 = Returned ↔
   ∃ pre a rest, attempts = pre ++ a :: rest ∧
                 Forall (retried deadline) pre ∧ failure a = None).
Proof. intros Hk. by apply initBackend_loop_outcome. Qed.

Lemma initBackend_outcome_witness :
  knownBackend (Registry_Backend Demo.cfg) = true ∧
  (initBackend Demo.cfg 0
     [mkAttempt (Some "refused") None 3 0; mkAttempt None None 99 1]).1 = Returned.
Proof.
  assert (knownBackend (Registry_Backend Demo.cfg) = true) as Hk by done.
  split; [exact Hk|].
  apply (initBackend_outcome Demo.cfg 0 _ Hk).
  exists [mkAttempt (Some "refused") None 3 0], (mkAttempt None None 99 1), [].
  split_and!; [done| |done].
  apply Forall_singleton. unfold retried. simpl. split_and!; [by eexists|lia|lia].
Defined.

(** X16. Whatever the backend and the attempts, [initBackend] ends the
    process at most once, as the very last thing it does, and always with
    exit code 1; when it returns or is still looping it has not called
    [exit.Fatal] or [exit.Exit], and it has slept at most once per attempt. *)
Theorem initBackend_exit_is_final cfg start attempts :
  let r := initBackend cfg start attempts in
  (count_if is_Sleep r.2 ≤ count_if is_attempt r.2)%nat ∧
  match r.1 with
  | Exited code =>
      code = 1 ∧
      ∃ tr e, r.2 = tr ++ [e] ∧ is_exit e = true ∧ count_if is_exit tr = O
  | _ => count_if is_exit r.2 = O
  end.
Proof.
  unfold initBackend. generalize (start + Registry_Timeout cfg) as deadline.
  intros deadline.
  destruct (knownBackend (Registry_Backend cfg)) eqn:Hk; cycle 1.
  { assert (initBackend_loop cfg deadline attempts =
              (Exited 1,
               [ExitFatal [AStr "[FATAL] Unknown registry backend ";
                           AStr (Registry_Backend cfg)]])) as ->
      by (destruct attempts; cbn [initBackend_loop]; by rewrite Hk).
    split; [done|]. split; [done|]. by eexists [], _. }
  induction attempts as [|a attempts IH];
    cbn [initBackend_loop]; rewrite Hk; cbn [negb]; [by split|].
  destruct (initBackend_loop cfg deadline attempts) as [o es].
  cbn [fst snd] in IH. destruct IH as [IHs IHx].
  destruct (newBackend_err a) as [e|]; [|destruct (register_err a) as [e|]].
  - destruct (now a >? deadline); [|destruct (shuttingDown a >? 0)]; cbn [fst snd].
    + split; [unfold count_if; simpl; lia|]. split; [done|].
      by eexists [_; _], _.
    + split; [unfold count_if; simpl; lia|]. split; [done|].
      by eexists [_; _; _], _.
    + rewrite !count_if_app. split; [unfold count_if in *; simpl; lia|].
      destruct o as [|code|].
      * by rewrite IHx.
      * destruct IHx as (-> & tr & x & -> & Hx & Htr). split; [done|].
        exists ([CallNewBackend (Registry_Backend cfg)] ++
                [Print [AStr "[WARN] Error initializing backend. "; AStr e];
                 Sleep (Registry_Retry cfg)] ++ tr), x.
        split; [by rewrite <- !app_assoc|]. split; [done|].
        by rewrite !count_if_app, Htr.
      * by rewrite IHx.
  - destruct (now a >? deadline); [|destruct (shuttingDown a >? 0)]; cbn [fst snd].
    + split; [unfold count_if; simpl; lia|]. split; [done|].
      by eexists [_; _; _], _.
    + split; [unfold count_if; simpl; lia|]. split; [done|].
      by eexists [_; _; _; _], _.
    + rewrite !count_if_app. split; [unfold count_if in *; simpl; lia|].
      destruct o as [|code|].
      * by rewrite IHx.
      * destruct IHx as (-> & tr & x & -> & Hx & Htr). split; [done|].
        exists ([CallNewBackend (Registry_Backend cfg); Register []] ++
                [Print [AStr "[WARN] Error initializing backend. "; AStr e];
                 Sleep (Registry_Retry cfg)] ++ tr), x.
        split; [by rewrite <- !app_assoc|]. split; [done|].
        by rewrite !count_if_app, Htr.
      * by rewrite IHx.
  - cbn [fst snd]. split; [unfold count_if; simpl; lia|done].
Qed.

(** ** initMetrics *)

Lemma count_actions_app p (l1 l2 : list Action) :
  count_actions p (l1 ++ l2) = (count_actions p l1 + count_actions p l2)%nat.
Proof. unfold count_actions. by rewrite List.filter_app, length_app. Qed.

Lemma registryCalls_counts a :
  count_actions is_newDefault (registryCalls a) = 1%nat ∧
  (count_actions is_newService (registryCalls a) ≤ 1)%nat ∧
  count_actions is_sleeping (registryCalls a) = O ∧
  count_actions is_ending (registryCalls a) = O ∧
  count_actions is_logging (registryCalls a) = O.
Proof.
  unfold registryCalls. destruct (defaultRegistry_err a);
    split_and!; try reflexivity; vm_compute; lia.
Qed.

(** One iteration of the loop of [initMetrics], by the result of the
    attempt. *)
Lemma initMetrics_loop_cons mcfg deadline a rest :
  ∃ calls,
    calls = registryCalls a ∧
    count_actions is_newDefault calls = 1%nat ∧
    (count_actions is_newService calls ≤ 1)%nat ∧
    count_actions is_sleeping calls = O ∧
    count_actions is_ending calls = O ∧
    count_actions is_logging calls = O ∧
    initMetrics_loop mcfg deadline (a :: rest) =
      match registryFailure a with
      | None => (Returned, calls)
      | Some e =>
          if clock a >? deadline then
            (Exited 1, calls ++ [Do (ExitFatal [AStr "[FATAL] "; AStr e])])
          else
            let warn :=
              Do (Print [AStr "[WARN] Error initializing metrics. "; AStr e]) in
            if flag a >? 0 then
              (Exited 1, calls ++ [warn; Do (Sleep (Metrics_Retry mcfg)); Do (ExitExit 1)])
            else
              ((initMetrics_loop mcfg deadline rest).1,
               calls ++ [warn; Do (Sleep (Metrics_Retry mcfg))]
                     ++ (initMetrics_loop mcfg deadline rest).2)
      end.
Proof.
  exists (registryCalls a).
  destruct (registryCalls_counts a) as (? & ? & ? & ? & ?).
  split_and!; try done.
  cbn [initMetrics_loop]. unfold registryFailure, registryCalls.
  destruct (defaultRegistry_err a) as [e|].
  - cbn zeta. destruct (clock a >? deadline); [done|].
    destruct (flag a >? 0); [done|].
    by destruct (initMetrics_loop mcfg deadline rest).
  - destruct (serviceRegistry_err a) as [e|]; [|done].
    cbn zeta. destruct (clock a >? deadline); [done|].
    destruct (flag a >? 0); [done|].
    by destruct (initMetrics_loop mcfg deadline rest).
Qed.

Lemma initMetrics_loop_retried mcfg deadline pre more :
  Forall (registryRetried deadline) pre →
  initMetrics_loop mcfg deadline (pre ++ more) =
    ((initMetrics_loop mcfg deadline more).1,
     flat_map (retryActions mcfg) pre ++ (initMetrics_loop mcfg deadline more).2) ∧
  count_actions is_newDefault (flat_map (retryActions mcfg) pre) = length pre ∧
  count_actions is_sleeping (flat_map (retryActions mcfg) pre) = length pre ∧
  count_actions is_logging (flat_map (retryActions mcfg) pre) = length pre ∧
  count_actions is_ending (flat_map (retryActions mcfg) pre) = O.
Proof.
  induction 1 as [|a pre ([e He] & Hnow & Hflag) _ (IH & Ha & Hs & Hl & Hx)].
  - split_and!; try done. simpl. by destruct (initMetrics_loop mcfg deadline more).
  - destruct (initMetrics_loop_cons mcfg deadline a (pre ++ more))
      as (calls & -> & Hcd & _ & Hcs & Hcx & Hcl & Heq).
    assert (retryActions mcfg a =
              registryCalls a
                ++ [Do (Print [AStr "[WARN] Error initializing metrics. "; AStr e]);
                    Do (Sleep (Metrics_Retry mcfg))]) as Hra
      by (unfold retryActions; by rewrite He).
    rewrite <- app_comm_cons, Heq, He. cbn zeta.
    assert ((clock a >? deadline) = false) as -> by lia.
    assert ((flag a >? 0) = false) as -> by lia.
    rewrite IH. cbn [fst snd flat_map].
    rewrite Hra, !count_actions_app, Hcd, Hcs, Hcx, Hcl, Ha, Hs, Hl, Hx.
    split_and!; try done. by rewrite <- !app_assoc.
Qed.

(** X17. With a metrics target set, as long as attempts to create the two
    registries fail before the deadline [start + metrics.timeout] and the
    shutdown flag is not set, [initMetrics] tries again: after each of them
    (the attempts [pre]) it logs the warning and sleeps [metrics.retry], and
    that is all it has done before the next attempt [a], one warning and one
    sleep per attempt of [pre]. At the attempt [a] it calls for the
    registries and returns if both are created; if the attempt fails after
    the deadline, the call of [exit.Fatal] with the error follows the calls
    for the registries at once, without the warning and without sleeping;
    if it fails before the deadline it logs the warning, sleeps, and then
    calls [exit.Exit(1)] if the shutdown flag is set. *)
Theorem initMetrics_retries_until_deadline mcfg start pre a rest :
  Metrics_Target mcfg ≠ EmptyString →
  let deadline := start + Metrics_Timeout mcfg in
  Forall (registryRetried deadline) pre →
  let r := initMetrics mcfg start (pre ++ a :: rest) in
  let tr := flat_map (retryActions mcfg) pre ++ registryCalls a in
  count_actions is_newDefault tr = S (length pre) ∧
  count_actions is_sleeping tr = length pre ∧
  count_actions is_logging tr = length pre ∧
  count_actions is_ending tr = O ∧
  match registryFailure a with
  | None => r = (Returned, tr)
  | Some e =>
      if bool_decide (deadline < clock a) then
        r = (Exited 1, tr ++ [Do (ExitFatal [AStr "[FATAL] "; AStr e])])
      else
        let warn := Do (Print [AStr "[WARN] Error initializing metrics. "; AStr e]) in
        if bool_decide (0 < flag a) then
          r = (Exited 1,
               tr ++ [warn; Do (Sleep (Metrics_Retry mcfg)); Do (ExitExit 1)])
        else
          r = ((initMetrics_loop mcfg deadline rest).1,
               tr ++ [warn; Do (Sleep (Metrics_Retry mcfg))]
                  ++ (initMetrics_loop mcfg deadline rest).2)
  end.
Proof.
  intros Hon deadline Hpre r tr. unfold r, tr, initMetrics.
  rewrite decide_False by done. fold deadline.
  destruct (initMetrics_loop_retried mcfg deadline pre (a :: rest) Hpre)
    as (-> & Ha & Hs & Hl & Hx).
  destruct (initMetrics_loop_cons mcfg deadline a rest)
    as (calls & -> & Hcd & _ & Hcs & Hcx & Hcl & ->).
  rewrite !count_actions_app, Ha, Hs, Hl, Hx, Hcd, Hcs, Hcx, Hcl.
  split_and!; [lia|lia|lia|done|].
  destruct (registryFailure a) as [e|]; [|done]. cbn zeta.
  destruct (Z.gtb_spec (clock a) deadline) as [Hlate|Hlate].
  { rewrite bool_decide_eq_true_2 by lia. cbn [fst snd]. by rewrite <- app_assoc. }
  rewrite bool_decide_eq_false_2 by lia.
  destruct (Z.gtb_spec (flag a) 0) as [Hdown|Hdown].
  { rewrite bool_decide_eq_true_2 by lia. cbn [fst snd]. by rewrite <- app_assoc. }
  rewrite bool_decide_eq_false_2 by lia. cbn [fst snd]. by rewrite <- !app_assoc.
Qed.

Lemma initMetrics_witness :
  Metrics_Target (mkMetrics "statsd" 10 1) ≠ EmptyString ∧
  Forall (registryRetried (0 + Metrics_Timeout (mkMetrics "statsd" 10 1)))
    [mkRegistryAttempt (Some "refused") None 3 0] ∧
  initMetrics (mkMetrics "statsd" 10 1) 0
    ([mkRegistryAttempt (Some "refused") None 3 0]
       ++ mkRegistryAttempt None (Some "denied") 11 0 :: [])
  = (Exited 1,
     [NewRegistry "metrics.DefaultRegistry";
      Do (Print [AStr "[WARN] Error initializing metrics. "; AStr "refused"]);
      Do (Sleep 1);
      NewRegistry "metrics.DefaultRegistry"; NewRegistry "route.ServiceRegistry";
      Do (ExitFatal [AStr "[FATAL] "; AStr "denied"])]).
Proof.
  assert (Metrics_Target (mkMetrics "statsd" 10 1) ≠ EmptyString) as Hon by done.
  assert (Forall (registryRetried (0 + Metrics_Timeout (mkMetrics "statsd" 10 1)))
            [mkRegistryAttempt (Some "refused") None 3 0]) as Hpre.
  { apply Forall_singleton. unfold registryRetried. simpl.
    split_and!; [by eexists|lia|lia]. }
  split; [exact Hon|]. split; [exact Hpre|].
  exact (proj2 (proj2 (proj2 (proj2
    (initMetrics_retries_until_deadline (mkMetrics "statsd" 10 1) 0
       [mkRegistryAttempt (Some "refused") None 3 0]
       (mkRegistryAttempt None (Some "denied") 11 0) [] Hon Hpre))))).
Defined.

(** X18. Without a metrics target [initMetrics] returns at once: it logs
    that metrics are disabled and creates no registry, whatever would
    happen to an attempt. With any configuration it creates the service
    registry only after the default registry, sleeps at most once per
    attempt, and has not ended the process when it returns or is still
    looping. *)
Theorem initMetrics_accounts mcfg start attempts :
  let r := initMetrics mcfg start attempts in
  (Metrics_Target mcfg = EmptyString →
   r = (Returned, [Do (Printf "[INFO] Metrics disabled" [])]))
  ∧ (count_actions is_newService r.2 ≤ count_actions is_newDefault r.2)%nat
  ∧ (count_actions is_sleeping r.2 ≤ count_actions is_newDefault r.2)%nat
  ∧ (r.1 ≠ Exited 1 → count_actions is_ending r.2 = O).
Proof.
  unfold initMetrics. case_decide as Hoff; [by split_and!|].
  split; [done|]. generalize (start + Metrics_Timeout mcfg) as deadline.
  intros deadline. induction attempts as [|a attempts IH]; [by split_and!|].
  destruct (initMetrics_loop_cons mcfg deadline a attempts)
    as (calls & _ & Hcd & Hcv & Hcs & Hcx & _ & ->).
  destruct (registryFailure a) as [e|]; cbn zeta.
  - destruct (clock a >? deadline); [|destruct (flag a >? 0)]; cbn [fst snd];
      rewrite !count_actions_app, ?Hcd, ?Hcs, ?Hcx.
    + split_and!; [unfold count_actions in *; simpl; lia..|done].
    + split_and!; [unfold count_actions in *; simpl; lia..|done].
    + destruct IH as (IHv & IHs & IHx).
      split_and!; [unfold count_actions in *; simpl; lia..|].
      intros Ho. by rewrite IHx.
  - cbn [fst snd]. rewrite Hcd, Hcs, Hcx. split_and!; [lia|lia|done].
Qed.

(** ** startServers *)

Section ServersProperties.
Context `{CertPkg}.

Lemma listenLogs_no_go l tlscfg :
  List.filter is_Go (listenLogs l tlscfg) = [] ∧
  count_actions is_fatal (listenLogs l tlscfg) = O.
Proof.
  unfold listenLogs. destruct tlscfg as [c|]; [|done]. by case_decide.
Qed.

Lemma protoSwitch_known proto :
  is_Some (protoSwitch proto) ↔
  proto ∈ ["http"; "https"; "grpc"; "grpcs"; "tcp"; "tcp+sni"; "tcp-dynamic";
           "https+tcp+sni"].
Proof.
  unfold protoSwitch. rewrite !elem_of_cons, elem_of_nil.
  repeat case_decide; split; intros Hp; try (by eexists); try tauto.
  by destruct Hp.
Qed.

(** One iteration of the loop of [startServers] on a listener that passes. *)
Lemma startServers_cons_passes l ls :
  passes l →
  ∃ logs,
    List.filter is_Go logs = [] ∧ count_actions is_fatal logs = O ∧
    startServers (l :: ls) =
      ((startServers ls).1, logs ++ started l ++ (startServers ls).2).
Proof.
  intros [[tlscfg Htls] [a Ha]]. cbn [startServers]. unfold started.
  rewrite Htls, Ha. exists (listenLogs l tlscfg).
  destruct (listenLogs_no_go l tlscfg) as [? ?]. split_and!; [done|done|].
  by destruct (startServers ls).
Qed.

(** One iteration on a listener that does not pass. *)
Lemma startServers_cons_fails l ls :
  ¬ passes l →
  ∃ logs e,
    List.filter is_Go logs = [] ∧ count_actions is_fatal logs = O ∧
    is_fatal e = true ∧
    startServers (l :: ls) = (Exited 1, logs ++ [e]).
Proof.
  intros Hnot. cbn [startServers].
  destruct (makeTLSConfig l) as [tlscfg|err] eqn:Htls.
  - destruct (protoSwitch (Proto l)) as [a|] eqn:Ha.
    + exfalso. apply Hnot. split; by eexists.
    + destruct (listenLogs_no_go l tlscfg) as [? ?].
      by exists (listenLogs l tlscfg),
        (Do (ExitFatal [AStr "[FATAL] Invalid protocol "; AStr (Proto l)])).
  - by exists [], (Do (ExitFatal [AStr "[FATAL] "; AStr err])).
Qed.

Lemma passes_dec l : Decision (passes l).
Proof.
  unfold passes. destruct (makeTLSConfig l) as [tlscfg|err].
  - destruct (protoSwitch (Proto l)) as [a|].
    + left. split; by eexists.
    + right. by intros [_ []].
  - right. by intros [[? ?] _].
Defined.

Lemma startServers_prefix pre more :
  Forall passes pre →
  ∃ tr,
    startServers (pre ++ more) =
      ((startServers more).1, tr ++ (startServers more).2) ∧
    List.filter is_Go tr = flat_map started pre ∧
    count_actions is_fatal tr = O.
Proof.
  induction 1 as [|l pre Hl _ (tr & IH & Hgo & Hfatal)].
  - exists []. split_and!; try done. simpl. by destruct (startServers more).
  - destruct (startServers_cons_passes l (pre ++ more) Hl)
      as (logs & Hlogs & Hlf & Heq).
    rewrite <- app_comm_cons, Heq, IH. cbn [fst snd].
    exists (logs ++ started l ++ tr). split_and!.
    + by rewrite <- !app_assoc.
    + rewrite !List.filter_app, Hlogs, Hgo. cbn [flat_map app]. f_equal.
      unfold started. destruct Hl as [[tlscfg ->] [a ->]]. done.
    + rewrite !count_actions_app, Hlf, Hfatal.
      unfold started. destruct Hl as [[tlscfg ->] [a ->]]. done.
Qed.

(** X19. [startServers] returns exactly when every configured listener
    passes, which is when its TLS configuration is made without error and
    its protocol is one of the eight of the switch; otherwise it ends the
    process with exit code 1. *)
Theorem startServers_returns_iff_all_pass (listen : list Listen) :
  ((startServers listen).1 = Returned ↔ Forall passes listen) ∧
  ((startServers listen).1 = Returned ∨ (startServers listen).1 = Exited 1) ∧
  ∀ l, passes l ↔
       (∃ tlscfg, makeTLSConfig l = inl tlscfg) ∧
       Proto l ∈ ["http"; "https"; "grpc"; "grpcs"; "tcp"; "tcp+sni"; "tcp-dynamic";
                  "https+tcp+sni"].
Proof.
  split_and!.
  - induction listen as [|l listen IH]; [done|].
    destruct (passes_dec l) as [Hl|Hl].
    + destruct (startServers_cons_passes l listen Hl) as (logs & _ & _ & ->).
      cbn [fst]. rewrite IH, Forall_cons. tauto.
    + destruct (startServers_cons_fails l listen Hl) as (logs & e & _ & _ & _ & ->).
      cbn [fst]. rewrite Forall_cons. split; [done|tauto].
  - induction listen as [|l listen IH]; [by left|].
    destruct (passes_dec l) as [Hl|Hl].
    + by destruct (startServers_cons_passes l listen Hl) as (logs & _ & _ & ->).
    + destruct (startServers_cons_fails l listen Hl) as (logs & e & _ & _ & _ & ->).
      by right.
  - intros l. unfold passes. by rewrite protoSwitch_known.
Qed.

(** X20. When every listener passes, [startServers] starts one goroutine
    per listener, in the order of the configuration, each with the TLS
    configuration made for its listener, and calls [exit.Fatal] for none. *)
Theorem startServers_starts_every_listener (listen : list Listen) :
  Forall passes listen →
  (startServers listen).1 = Returned ∧
  List.filter is_Go (startServers listen).2 = flat_map started listen ∧
  length (List.filter is_Go (startServers listen).2) = length listen ∧
  count_actions is_fatal (startServers listen).2 = O.
Proof.
  intros Hall.
  destruct (startServers_prefix listen [] Hall) as (tr & Heq & Hgo & Hfatal).
  rewrite app_nil_r in Heq. rewrite Heq. cbn [fst snd startServers].
  rewrite app_nil_r. split_and!; [done|done| |done].
  rewrite Hgo. clear -Hall. induction Hall as [|l ls [[tlscfg Ht] [a Ha]] _ IH]; [done|].
  cbn [flat_map]. rewrite length_app, IH. unfold started. by rewrite Ht, Ha.
Qed.

(** X21. At the first listener that does not pass, [startServers] ends the
    process by [exit.Fatal]: the goroutines of the listeners before it have
    been started, in order, that call is the last thing done, and the
    listeners after it are not looked at. *)
Theorem startServers_stops_at_first_failure (pre : list Listen) bad rest :
  Forall passes pre →
  ¬ passes bad →
  let r := startServers (pre ++ bad :: rest) in
  r.1 = Exited 1 ∧
  List.filter is_Go r.2 = flat_map started pre ∧
  (∃ tr e, r.2 = tr ++ [e] ∧ is_fatal e = true ∧ count_actions is_fatal tr = O) ∧
  ∀ rest', startServers (pre ++ bad :: rest') = r.
Proof.
  intros Hpre Hbad r.
  assert (∀ rest0, ∃ tr e,
            startServers (pre ++ bad :: rest0) = (Exited 1, tr ++ [e]) ∧
            List.filter is_Go tr = flat_map started pre ∧
            is_fatal e = true ∧ count_actions is_fatal tr = O ∧
            (∀ rest1, startServers (pre ++ bad :: rest1) = (Exited 1, tr ++ [e])))
    as Hgen.
  { intros rest0.
    destruct (startServers_cons_fails bad rest0 Hbad)
      as (logs & e & Hlogs & Hlf & He & Heq).
    assert (∀ rest1, startServers (bad :: rest1) = (Exited 1, logs ++ [e])) as Hbad'.
    { intros rest1. rewrite <- Heq. cbn [startServers].
      destruct (makeTLSConfig bad) eqn:Htls; [|done].
      destruct (protoSwitch (Proto bad)) eqn:Ha; [|done].
      exfalso. apply Hbad. split; by eexists. }
    assert (∃ tr0, List.filter is_Go tr0 = flat_map started pre ∧
                   count_actions is_fatal tr0 = O ∧
                   ∀ rest1, startServers (pre ++ bad :: rest1)
                            = (Exited 1, tr0 ++ logs ++ [e])) as (tr0 & Hgo & Hf & Hall).
    { clear -Hpre Hbad'. induction Hpre as [|l pre Hl _ (tr0 & Hgo & Hf & IH)].
      - exists []. by split_and!.
      - destruct Hl as [[tlscfg Ht] [a Ha]].
        exists (listenLogs l tlscfg ++ [Go a l tlscfg] ++ tr0).
        destruct (listenLogs_no_go l tlscfg) as [Hlg Hlf].
        split_and!.
        + rewrite !List.filter_app, Hlg, Hgo. cbn [flat_map]. unfold started.
          by rewrite Ht, Ha.
        + by rewrite !count_actions_app, Hlf, Hf.
        + intros rest1. rewrite <- app_comm_cons. cbn [startServers].
          rewrite Ht, Ha, IH. by rewrite <- !app_assoc. }
    exists (tr0 ++ logs), e. split_and!.
    - by rewrite Hall, <- app_assoc.
    - by rewrite List.filter_app, Hlogs, app_nil_r.
    - done.
    - by rewrite count_actions_app, Hf, Hlf.
    - intros rest1. by rewrite Hall, <- app_assoc. }
  destruct (Hgen rest) as (tr & e & Heq & Hgo & He & Hf & Hall).
  unfold r. rewrite Heq. cbn [fst snd]. split_and!.
  - done.
  - rewrite List.filter_app, Hgo. destruct e as [x| |]; try done.
    simpl. by rewrite app_nil_r.
  - by exists tr, e.
  - intros rest'. apply Hall.
Qed.

End ServersProperties.

Lemma startServers_starts_witness :
  Forall (@passes DemoCert.certPkg) DemoCert.listeners ∧
  List.filter is_Go (@startServers DemoCert.certPkg DemoCert.listeners).2 =
    [Go ServeHTTP (mkListen "http" ":9999" EmptyString) None;
     Go ServeHTTP (mkListen "https" ":443" "pem") (Some (mkTLS 4))].
Proof.
  assert (Forall (@passes DemoCert.certPkg) DemoCert.listeners) as Hall.
  { apply Forall_cons. split; [split; by eexists|].
    apply Forall_singleton. split; by eexists. }
  split; [exact Hall|].
  rewrite (proj1 (proj2 (@startServers_starts_every_listener DemoCert.certPkg
                           DemoCert.listeners Hall))).
  reflexivity.
Defined.

Lemma startServers_stops_witness :
  Forall (@passes DemoCert.certPkg) [mkListen "http" ":9999" EmptyString] ∧
  ¬ @passes DemoCert.certPkg (mkListen "https" ":443" "broken") ∧
  (@startServers DemoCert.certPkg
     ([mkListen "http" ":9999" EmptyString]
        ++ mkListen "https" ":443" "broken" :: [mkListen "tcp" ":5432" EmptyString])).1
  = Exited 1.
Proof.
  assert (Forall (@passes DemoCert.certPkg) [mkListen "http" ":9999" EmptyString])
    as Hpre.
  { apply Forall_singleton. split; by eexists. }
  assert (¬ @passes DemoCert.certPkg (mkListen "https" ":443" "broken")) as Hbad.
  { intros [[tlscfg Htls] _]. by vm_compute in Htls. }
  split; [exact Hpre|]. split; [exact Hbad|].
  exact (proj1 (@startServers_stops_at_first_failure DemoCert.certPkg _ _
                  [mkListen "tcp" ":5432" EmptyString] Hpre Hbad)).
Defined.

(** ** fmtDiff and logRoutes *)

Section LogProperties.
Context `{Collaborators}.

Lemma fmtDiff_step_acc b d :
  fmtDiff_step b d = b +:+ fmtDiff_step EmptyString d.
Proof.
  unfold fmtDiff_step, Buffer.WriteString.
  case_decide; [by rewrite append_empty_r|].
  destruct (Type_ d).
  - change (EmptyString +:+ "- ") with "- ". apply append_assoc.
  - by rewrite append_empty_r.
  - change (EmptyString +:+ "+ ") with "+ ". apply append_assoc.
Qed.

Lemma foldl_fmtDiff_acc ds :
  ∀ b, foldl fmtDiff_step b ds = b +:+ foldl fmtDiff_step EmptyString ds.
Proof.
  induction ds as [|d ds IH]; intros b; simpl; [by rewrite append_empty_r|].
  rewrite IH, (IH (fmtDiff_step EmptyString d)), fmtDiff_step_acc.
  apply append_assoc.
Qed.

(** X22. The text [fmtDiff] makes of a list of diffs is the concatenation,
    with nothing between, of the texts it makes of the single diffs: a diff
    that is equal or blank once trimmed gives nothing, a deletion gives its
    trimmed text with [- ] before each of its lines, an insertion the same
    with [+ ]. *)
Theorem fmtDiff_concatenates (ds1 ds2 : list Diff) (d : Diff) :
  fmtDiff (ds1 ++ ds2) = fmtDiff ds1 +:+ fmtDiff ds2
  ∧ fmtDiff [] = EmptyString
  ∧ fmtDiff [d] =
      (if decide (TrimSpace (Text d) = EmptyString) then EmptyString
       else
         match Type_ d with
         | DiffDelete => "- " +:+ strings.Replace (TrimSpace (Text d)) nl (nl +:+ "- ")
         | DiffInsert => "+ " +:+ strings.Replace (TrimSpace (Text d)) nl (nl +:+ "+ ")
         | DiffEqual => EmptyString
         end).
Proof.
  unfold fmtDiff, Buffer.String. split_and!.
  - by rewrite foldl_app, foldl_fmtDiff_acc.
  - done.
  - simpl. unfold fmtDiff_step, Buffer.WriteString. case_decide; [done|].
    by destruct (Type_ d).
Qed.


End LogProperties.

(** ** More examples *)

Example initMetrics_disabled :
  initMetrics (mkMetrics EmptyString 10 1) 0 [mkRegistryAttempt (Some "refused") None 99 1]
  = (Returned, [Do (Printf "[INFO] Metrics disabled" [])]).
Proof. reflexivity. Qed.

Example startServers_invalid_protocol :
  @startServers DemoCert.certPkg
    [mkListen "http" ":9999" EmptyString; mkListen "udp" ":53" EmptyString]
  = (Exited 1,
     [Do (Printf "[INFO] %s proxy listening on %s" [AStr "http"; AStr ":9999"]);
      Go ServeHTTP (mkListen "http" ":9999" EmptyString) None;
      Do (Printf "[INFO] %s proxy listening on %s" [AStr "udp"; AStr ":53"]);
      Do (ExitFatal [AStr "[FATAL] Invalid protocol "; AStr "udp"])]).
Proof. reflexivity. Qed.

Example makeTLSConfig_broken_source :
  @makeTLSConfig DemoCert.certPkg (mkListen "https" ":443" "broken")
  = inr "Failed to create cert source broken. no such file".
Proof. reflexivity. Qed.

Example initBackend_unknown_backend :
  initBackend (mkConfig "etcd" 10 1 "delta" "rnd") 0 []
  = (Exited 1, [ExitFatal [AStr "[FATAL] Unknown registry backend "; AStr "etcd"]]).
Proof. reflexivity. Qed.

Example initMetrics_fatal_without_warning :
  initMetrics (mkMetrics "statsd" 10 1) 0 [mkRegistryAttempt (Some "refused") None 11 0]
  = (Exited 1,
     [NewRegistry "metrics.DefaultRegistry";
      Do (ExitFatal [AStr "[FATAL] "; AStr "refused"])]).
Proof. reflexivity. Qed.
